(** * libvpsc: the batch and incremental VPSC solvers

    A shallow embedding of [src/cola/libvpsc/solve_VPSC.cpp]: [Solver] and
    [IncSolver], their constructors and their [satisfy], [refine], [solve],
    [copyResult], [splitBlocks], [mostViolated] and
    [constraintGraphIsCyclic] member functions; and of
    [Cluster::computeBoundingRect], [RectangularCluster::computeBoundary]
    and [ConvexCluster::computeBoundary] of [src/cola/libcola/cluster.cpp].

    - C++ [double] is the kernel's binary64 [float]; comparisons are the
      IEEE ones, so a NaN compares false with everything.
    - Objects reached through pointers ([Variable*], [Constraint*],
      [Block*]) live in a [Heap] of stores indexed by address; mutation is
      a store update, so aliasing between [cs], [inactive] and the blocks
      is kept. The stores are total: every address holds an object, and
      a pointer that may be null is an [option].
    - [throw] and undefined behaviour (a null dereference, an index out of
      range) are outcomes of the [outcome] monad.
    - The two loops that have no bound of their own, the merge loop of
      [IncSolver::satisfy] and the cost loop of [IncSolver::solve], take
      fuel.
    - The member functions of [Constraint], [Block] and [Blocks] are defined
      in constraint.cpp, block.cpp and blocks.cpp; the solver code is
      embedded over an interface [BlockOps] of them.
    - [ASSERT] is compiled out (its macro lives in assertions.h); asserted
      conditions are stated as lemmas where they matter. Logging
      ([LIBVPSC_LOGGING]) and the text written to [std::cerr] are left out. *)

From Stdlib Require Import Floats ZArith Lia.
From stdpp Require Import base option list functions.
From stdpp Require gmap relations.

(** ** Doubles and the numerical constants *)

Definition double : Set := float.

#[warnings="-inexact-float"]
Definition ZERO_UPPERBOUND : double := (-1e-10)%float.

#[warnings="-inexact-float"]
Definition LAGRANGIAN_TOLERANCE : double := (-1e-4)%float.

(** [DBL_MAX] of <cfloat>: the largest finite binary64. *)
Definition DBL_MAX : double := 0x1.fffffffffffffp+1023%float.

(** The cost-convergence epsilon of [IncSolver::solve]. *)
#[warnings="-inexact-float"]
Definition COST_EPSILON : double := 0.0001%float.

(** [x < y], [x >= y] and [x > y] on doubles, as C++ evaluates them. *)
Definition dlt (x y : double) : bool := PrimFloat.ltb x y.
Definition dge (x y : double) : bool := PrimFloat.leb y x.
Definition dgt (x y : double) : bool := PrimFloat.ltb y x.

(** ** The data model *)

(** Addresses of [Variable], [Constraint] and [Block] objects. *)
Definition vptr := nat.
Definition cptr := nat.
Definition bptr := nat.

Module Var.
Record t := mk {
  desiredPosition : double;
  weight : double;
  scale : double;
  offset : double;
  block : bptr;
  finalPosition : double;
  in_ : list cptr;
  out : list cptr }.

Definition set_finalPosition (x : double) (v : t) : t :=
  mk (desiredPosition v) (weight v) (scale v) (offset v) (block v) x
     (in_ v) (out v).

Definition set_in (l : list cptr) (v : t) : t :=
  mk (desiredPosition v) (weight v) (scale v) (offset v) (block v)
     (finalPosition v) l (out v).

Definition set_out (l : list cptr) (v : t) : t :=
  mk (desiredPosition v) (weight v) (scale v) (offset v) (block v)
     (finalPosition v) (in_ v) l.
End Var.

Module Constraint.
Record t := mk {
  left : vptr;
  right : vptr;
  gap : double;
  lm : double;
  active : bool;
  equality : bool;
  unsatisfiable : bool }.

Definition set_active (b : bool) (c : t) : t :=
  mk (left c) (right c) (gap c) (lm c) b (equality c) (unsatisfiable c).

Definition set_unsatisfiable (b : bool) (c : t) : t :=
  mk (left c) (right c) (gap c) (lm c) (active c) (equality c) b.
End Constraint.

Module Block.
Record t := mk {
  vars : list vptr;
  posn : double;
  weight : double;
  deleted : bool;
  in_ : list cptr;
  out : list cptr }.

Definition set_deleted (b : bool) (x : t) : t :=
  mk (vars x) (posn x) (weight x) b (in_ x) (out x).
End Block.

(** The heap: one store per class, and the [Blocks] object [bs] points to,
    a [std::set<Block*>] kept as the list of its elements in iteration
    order. *)
Record Heap := mkHeap {
  variables : vptr -> Var.t;
  constraints : cptr -> Constraint.t;
  blocks : bptr -> Block.t;
  bs : list bptr }.

Definition with_variables (f : vptr -> Var.t) (h : Heap) : Heap :=
  mkHeap f (constraints h) (blocks h) (bs h).

Definition with_constraints (f : cptr -> Constraint.t) (h : Heap) : Heap :=
  mkHeap (variables h) f (blocks h) (bs h).

Definition with_blocks (f : bptr -> Block.t) (h : Heap) : Heap :=
  mkHeap (variables h) (constraints h) f (bs h).

(** [p->field = x] for each field the solver code writes. *)
Definition write_finalPosition (v : vptr) (x : double) (h : Heap) : Heap :=
  with_variables (<[v := Var.set_finalPosition x (variables h v)]> (variables h)) h.

Definition write_active (c : cptr) (b : bool) (h : Heap) : Heap :=
  with_constraints (<[c := Constraint.set_active b (constraints h c)]> (constraints h)) h.

Definition write_unsatisfiable (c : cptr) (b : bool) (h : Heap) : Heap :=
  with_constraints
    (<[c := Constraint.set_unsatisfiable b (constraints h c)]> (constraints h)) h.

Definition write_deleted (b : bptr) (x : bool) (h : Heap) : Heap :=
  with_blocks (<[b := Block.set_deleted x (blocks h b)]> (blocks h)) h.

(** Field reads through a pointer. *)
Definition equality (h : Heap) (c : cptr) : bool := Constraint.equality (constraints h c).
Definition active (h : Heap) (c : cptr) : bool := Constraint.active (constraints h c).
Definition unsatisfiable (h : Heap) (c : cptr) : bool :=
  Constraint.unsatisfiable (constraints h c).
Definition lm (h : Heap) (c : cptr) : double := Constraint.lm (constraints h c).
Definition left_block (h : Heap) (c : cptr) : bptr :=
  Var.block (variables h (Constraint.left (constraints h c))).
Definition right_block (h : Heap) (c : cptr) : bptr :=
  Var.block (variables h (Constraint.right (constraints h c))).

(** Modelled from the spec: [Variable::position()] is declared in variable.h,
    which is not among the sources. The data model gives
    [position = block.position + offset/scale]. *)
Definition position (h : Heap) (v : vptr) : double :=
  (Block.posn (blocks h (Var.block (variables h v)))
   + Var.offset (variables h v) / Var.scale (variables h v))%float.

(** ** Outcomes: normal return, [throw], undefined behaviour *)

Inductive exn :=
| UnsatisfiedConstraint (c : cptr)
    (* [throw UnsatisfiedConstraint( *cs[i])] *)
| CStringMessage (c : cptr)
    (* [throw s.str().c_str()]: a [const char*], the text about constraint c *).

Inductive outcome (A : Type) :=
| Ok (a : A)
| Throw (e : exn)
| Undefined.
Arguments Ok {A} a.
Arguments Throw {A} e.
Arguments Undefined {A}.

#[global] Instance outcome_ret : MRet outcome := fun _ a => Ok a.

#[global] Instance outcome_bind : MBind outcome := fun _ _ f x =>
  match x with
  | Ok a => f a
  | Throw e => Throw e
  | Undefined => Undefined
  end.

(** Dereferencing a possibly null pointer. *)
Definition deref {A} (p : option A) : outcome A :=
  match p with Some a => Ok a | None => Undefined end.

(** ** The operations defined outside solve_VPSC.cpp

    Each takes the heap and returns the heap it leaves. [splitBetween]
    returns [None] when it throws [UnsatisfiableException], and otherwise
    the freed constraint (or null) with the values left in its two
    [Block*&] arguments. *)
Class BlockOps := {
  (* constraint.h *)
  slack : Heap -> cptr -> double;
  (* blocks.h *)
  Blocks_new : list vptr -> Heap -> Heap;
  totalOrder : Heap -> list vptr;
  mergeLeft : bptr -> Heap -> Heap;
  cleanup : Heap -> Heap;
  Blocks_split : bptr -> cptr -> Heap -> Heap;
  Blocks_insert : bptr -> Heap -> Heap;
  cost : Heap -> double;
  (* block.h *)
  Block_merge : bptr -> bptr -> cptr -> Heap -> bptr * Heap;
  Block_split : bptr -> cptr -> Heap -> bptr * bptr * Heap;
  splitBetween : bptr -> vptr -> vptr -> Heap -> option (option cptr * bptr * bptr) * Heap;
  isActiveDirectedPathBetween : bptr -> vptr -> vptr -> Heap -> bool;
  findMinLM : bptr -> Heap -> option cptr * Heap;
  setUpInConstraints : bptr -> Heap -> Heap;
  setUpOutConstraints : bptr -> Heap -> Heap;
  updateWeightedPosition : bptr -> Heap -> Heap }.

(** ** [Solver] *)

Module Solver.

Record t := mk {
  m : nat;
  cs : list cptr;
  n : nat;
  vs : list vptr }.

Section WithOps.
Context {ops : BlockOps}.

(** The constructor: clears every variable's [in] and [out], links each
    constraint to its endpoints, and builds the block set. *)
Definition clear_in_out (h : Heap) (v : vptr) : Heap :=
  with_variables
    (<[v := Var.set_out [] (Var.set_in [] (variables h v))]> (variables h)) h.

Definition link (h : Heap) (c : cptr) : Heap :=
  let l := Constraint.left (constraints h c) in
  let h1 := with_variables
    (<[l := Var.set_out (Var.out (variables h l) ++ [c]) (variables h l)]> (variables h)) h in
  let r := Constraint.right (constraints h1 c) in
  with_variables
    (<[r := Var.set_in (Var.in_ (variables h1 r) ++ [c]) (variables h1 r)]> (variables h1)) h1.

Definition new (vs : list vptr) (cs : list cptr) (h : Heap) : t * Heap :=
  (mk (length cs) cs (length vs) vs,
   Blocks_new vs (foldl link (foldl clear_in_out h vs) cs)).

(** [copyResult]: [v->finalPosition = v->position()] for each [v] of [vs]. *)
Definition copyResult (s : t) (h : Heap) : Heap :=
  foldl (fun h v => write_finalPosition v (position h v) h) h (vs s).

(** The condition [copyResult] asserts after each write. *)
Definition copyResult_assertion (h : Heap) (v : vptr) : bool :=
  PrimFloat.eqb (Var.finalPosition (variables h v)) (Var.finalPosition (variables h v)).

(** The verification loop [for(i=0;i<m;i++)] that ends [satisfy] and
    [refine]: [k] iterations are left, [raise] builds what is thrown. In
    [refine] the flag [activeConstraints] is not kept. *)
Fixpoint verify (raise : cptr -> exn) (h : Heap) (cs : list cptr) (i k : nat)
    (activeConstraints : bool) : outcome bool :=
  match k with
  | 0 => mret activeConstraints
  | S k' =>
      c ← deref (cs !! i);
      let activeConstraints := if active h c then true else activeConstraints in
      if dlt (slack h c) ZERO_UPPERBOUND then Throw (raise c)
      else verify raise h cs (S i) k' activeConstraints
  end.

Definition mergeLeft_all (h : Heap) (vList : list vptr) : Heap :=
  foldl (fun h v =>
           let b := Var.block (variables h v) in
           if Block.deleted (blocks h b) then h else mergeLeft b h) h vList.

Definition satisfy (s : t) (h : Heap) : outcome (bool * Heap) :=
  let vList := totalOrder h in
  let h := mergeLeft_all h vList in
  let h := cleanup h in
  activeConstraints ← verify UnsatisfiedConstraint h (cs s) 0 (m s) false;
  mret (activeConstraints, copyResult s h).

(** One outer pass of [refine]: the first [for] rebuilds the heaps of every
    block, the second looks for a block to split. The set is iterated as
    it stood when the loop began; the only change to it, [bs->split], is
    followed by [break]. *)
Definition refine_setup (h : Heap) : Heap :=
  foldl (fun h b => setUpOutConstraints b (setUpInConstraints b h)) h (bs h).

(** Returns [solved]: [false] when a split was done. *)
Fixpoint refine_scan (l : list bptr) (h : Heap) : bool * Heap :=
  match l with
  | [] => (true, h)
  | b :: rest =>
      let '(c, h) := findMinLM b h in
      match c with
      | Some c =>
          if dlt (lm h c) LAGRANGIAN_TOLERANCE
          then (false, cleanup (Blocks_split b c h))
          else refine_scan rest h
      | None => refine_scan rest h
      end
  end.

Definition refine_pass (h : Heap) : bool * Heap :=
  let h := refine_setup h in refine_scan (bs h) h.

(** [while(!solved&&maxtries>0)], returning the final [solved], [maxtries]
    and heap. *)
Fixpoint refine_while (solved : bool) (maxtries : nat) (h : Heap) : bool * nat * Heap :=
  if solved then (solved, maxtries, h)
  else match maxtries with
       | 0 => (solved, maxtries, h)
       | S maxtries =>
           let '(solved, h) := refine_pass h in
           refine_while solved maxtries h
       end.

Definition refine (s : t) (h : Heap) : outcome Heap :=
  let '(_, _, h) := refine_while false 100 h in
  _ ← verify UnsatisfiedConstraint h (cs s) 0 (m s) false;
  mret h.

Definition solve (s : t) (h : Heap) : outcome (bool * Heap) :=
  '(_, h) ← satisfy s h;
  h ← refine s h;
  let h := copyResult s h in
  mret (negb (length (bs h) =? n s), h).

End WithOps.
End Solver.

(** ** [IncSolver] *)

Module IncSolver.

Record t := mk {
  base : Solver.t;
  splitCnt : nat;
  inactive : list cptr }.

Definition set_inactive (l : list cptr) (s : t) : t := mk (base s) (splitCnt s) l.
Definition set_splitCnt (k : nat) (s : t) : t := mk (base s) k (inactive s).

(** [inactive.push_back(c)]. *)
Definition push_inactive (c : cptr) (s : t) : t := set_inactive (inactive s ++ [c]) s.

(** The locals of the scan of [mostViolated]: [minSlack], [v] and
    [deletePoint] (an index into [l]; [None] is [l.end()]). *)
Record scan := mkScan {
  minSlack : double;
  v_ : option cptr;
  deletePoint : option nat }.

(** What one turn of the merge loop of [satisfy] ends in: the loop
    condition failed, or the body ran (to its end or to a [continue]). *)
Inductive turn :=
| Break (s : t) (h : Heap)
| Continue (s : t) (h : Heap).

Section WithOps.
Context {ops : BlockOps}.

(** The constructor; [splitCnt] is first set by [splitBlocks]. *)
Definition new (vs : list vptr) (cs : list cptr) (h : Heap) : t * Heap :=
  let '(s, h) := Solver.new vs cs h in
  (mk s 0 cs, foldl (fun h c => write_active c false h) h cs).

(** The [for] loop of [mostViolated] over [l], from index [i] on. *)
Fixpoint mostViolated_scan (h : Heap) (l : list cptr) (i : nat) (st : scan) : scan :=
  match l with
  | [] => st
  | c :: rest =>
      let slack_c := slack h c in
      if equality h c || dlt slack_c (minSlack st) then
        let st' := mkScan slack_c (Some c) (Some i) in
        if equality h c then st' else mostViolated_scan h rest (S i) st'
      else mostViolated_scan h rest (S i) st
  end.

(** [*deletePoint = l[l.size()-1]; l.resize(l.size()-1)]. *)
Definition swap_remove (i : nat) (l : list cptr) : outcome (list cptr) :=
  back ← deref (l !! (length l - 1));
  mret (take (length l - 1) (<[i := back]> l)).

(** Returns [v] and the list [l] as it is left. The right operand of
    [deletePoint != end && ...] reads [v->active] and [v->equality]. *)
Definition mostViolated (h : Heap) (l : list cptr) : outcome (option cptr * list cptr) :=
  let st := mostViolated_scan h l 0 (mkScan DBL_MAX None None) in
  match deletePoint st with
  | Some i =>
      v ← deref (v_ st);
      if dlt (minSlack st) ZERO_UPPERBOUND && negb (active h v) || equality h v then
        l' ← swap_remove i l;
        mret (v_ st, l')
      else mret (v_ st, l)
  | None => mret (v_ st, l)
  end.

Definition moveBlocks (h : Heap) : Heap :=
  foldl (fun h b => updateWeightedPosition b h) h (bs h).

(** [splitBlocks]. The loop runs over the set as it stood when it began:
    whether the C++ iterator also reaches the blocks inserted by the body
    depends on their addresses. *)
Definition splitBlocks_step (sh : t * Heap) (b : bptr) : t * Heap :=
  let '(s, h) := sh in
  let '(v, h) := findMinLM b h in
  match v with
  | Some v =>
      if dlt (lm h v) LAGRANGIAN_TOLERANCE then
        let s := set_splitCnt (S (splitCnt s)) s in
        let b := left_block h v in
        let '(l, r, h) := Block_split b v h in
        let h := updateWeightedPosition l h in
        let h := updateWeightedPosition r h in
        let h := Blocks_insert l h in
        let h := Blocks_insert r h in
        let h := write_deleted b true h in
        (push_inactive v s, h)
      else (s, h)
  | None => (s, h)
  end.

Definition splitBlocks (s : t) (h : Heap) : t * Heap :=
  let h := moveBlocks h in
  let s := set_splitCnt 0 s in
  let '(s, h) := foldl splitBlocks_step (s, h) (bs h) in
  (s, cleanup h).

(** The second conjunct of the condition of the merge loop. *)
Definition satisfy_cond (h : Heap) (v : cptr) : bool :=
  equality h v || dlt (slack h v) ZERO_UPPERBOUND && negb (active h v).

(** The same-block case once no cycle was found: split, then either keep
    the halves or merge them back over [v]. The [bool] tells whether the body
    goes on to [bs->cleanup()] ([false] is a [continue]). *)
Definition satisfy_split (s : t) (h : Heap) (v : cptr) (lb : bptr) : bool * t * Heap :=
  let '(r, h) :=
    splitBetween lb (Constraint.left (constraints h v))
                 (Constraint.right (constraints h v)) h in
  match r with
  | Some (Some splitConstraint, lb, rb) =>
      let s := push_inactive splitConstraint s in
      if dge (slack h v) 0%float then
        let s := push_inactive v s in
        let h := Blocks_insert lb h in
        let h := Blocks_insert rb h in
        (true, s, h)
      else
        let '(b, h) := Block_merge lb rb v h in
        (true, s, Blocks_insert b h)
  | Some (None, _, _) => (false, s, write_unsatisfiable v true h)
  | None => (* catch(UnsatisfiableException e) *)
      (false, s, write_unsatisfiable v true h)
  end.

(** The body of the merge loop. *)
Definition satisfy_body (s : t) (h : Heap) (v : cptr) : t * Heap :=
  let lb := left_block h v in
  let rb := right_block h v in
  if negb (lb =? rb) then
    let '(_, h) := Block_merge lb rb v h in
    (s, cleanup h)
  else if isActiveDirectedPathBetween lb (Constraint.right (constraints h v))
            (Constraint.left (constraints h v)) h then
    (s, write_unsatisfiable v true h)
  else
    let '(go_on, s, h) := satisfy_split s h v lb in
    if go_on then (s, cleanup h) else (s, h).

(** One evaluation of the loop condition, and the body when it holds. *)
Definition satisfy_turn (s : t) (h : Heap) : outcome turn :=
  '(v, l) ← mostViolated h (inactive s);
  let s := set_inactive l s in
  match v with
  | Some v =>
      if satisfy_cond h v
      then let '(s, h) := satisfy_body s h v in mret (Continue s h)
      else mret (Break s h)
  | None => mret (Break s h)
  end.

(** The merge loop has no bound of its own: [None] is fuel running out. *)
Fixpoint satisfy_loop (fuel : nat) (s : t) (h : Heap) : option (outcome (t * Heap)) :=
  match fuel with
  | 0 => None
  | S fuel =>
      match satisfy_turn s h with
      | Ok (Continue s h) => satisfy_loop fuel s h
      | Ok (Break s h) => Some (Ok (s, h))
      | Throw e => Some (Throw e)
      | Undefined => Some Undefined
      end
  end.

(** What follows the merge loop: [cleanup], the verification loop (which
    throws a C string), [copyResult]. *)
Definition satisfy_finish (s : t) (h : Heap) : outcome (bool * t * Heap) :=
  let h := cleanup h in
  activeConstraints ←
    Solver.verify CStringMessage h (Solver.cs (base s)) 0 (Solver.m (base s)) false;
  mret (activeConstraints, s, Solver.copyResult (base s) h).

Definition satisfy (fuel : nat) (s : t) (h : Heap) : option (outcome (bool * t * Heap)) :=
  let '(s, h) := splitBlocks s h in
  r ← satisfy_loop fuel s h;
  Some ('(s, h) ← r; satisfy_finish s h).

(** [while(fabs(lastcost-cost)>0.0001)]; every call of [satisfy] gets
    [fuel] turns. *)
Fixpoint solve_loop (fuel : nat) (tries : nat) (s : t) (h : Heap) (lastcost cost_ : double)
    : option (outcome (t * Heap)) :=
  if dgt (PrimFloat.abs (lastcost - cost_)%float) COST_EPSILON then
    match tries with
    | 0 => None
    | S tries =>
        r ← satisfy fuel s h;
        match r with
        | Ok (_, s, h) => solve_loop fuel tries s h cost_ (cost h)
        | Throw e => Some (Throw e)
        | Undefined => Some Undefined
        end
    end
  else Some (Ok (s, h)).

Definition solve (fuel : nat) (s : t) (h : Heap) : option (outcome (bool * t * Heap)) :=
  match satisfy fuel s h with
  | Some (Ok (_, s, h)) =>
      match solve_loop fuel fuel s h DBL_MAX (cost h) with
      | Some (Ok (s, h)) =>
          let h := Solver.copyResult (base s) h in
          Some (Ok (negb (length (bs h) =? Solver.n (base s)), s, h))
      | Some (Throw e) => Some (Throw e)
      | Some Undefined => Some Undefined
      | None => None
      end
  | Some (Throw e) => Some (Throw e)
  | Some Undefined => Some Undefined
  | None => None
  end.

End WithOps.
End IncSolver.

(** ** A stand-in for constraint.cpp, block.cpp and blocks.cpp

    Used only to run the solver code on concrete heaps. Blocks are never
    merged or split by it, which is what the real operations do on a
    problem whose constraints all hold at the desired positions; the
    answers of [isActiveDirectedPathBetween] and [splitBetween] are
    scripted by its two parameters. *)

Module Standin.

(** Modelled from the spec: [Constraint::slack()] is defined in
    constraint.cpp, which is not among the sources. The data model gives
    [right.position - left.position - gap]. *)
Definition slack_spec (h : Heap) (c : cptr) : double :=
  (position h (Constraint.right (constraints h c))
   - position h (Constraint.left (constraints h c))
   - Constraint.gap (constraints h c))%float.

(** Modelled from the spec: the constructor of [Blocks] (blocks.cpp) puts
    each variable in a block of its own, with offset 0, at its desired
    position and with its weight. The block of the variable at address [v]
    is put at address [v]. *)
Definition singleton (h : Heap) (v : vptr) : Heap :=
  let x := variables h v in
  let x' := Var.mk (Var.desiredPosition x) (Var.weight x) (Var.scale x) 0%float v
                   (Var.finalPosition x) (Var.in_ x) (Var.out x) in
  let b := Block.mk [v] (Var.desiredPosition x) (Var.weight x) false [] [] in
  mkHeap (<[v := x']> (variables h)) (constraints h) (<[v := b]> (blocks h)) (bs h ++ [v]).

Definition Blocks_new_spec (vs : list vptr) (h : Heap) : Heap :=
  foldl singleton (mkHeap (variables h) (constraints h) (blocks h) []) vs.

(** Modelled from the spec: [Blocks::cleanup] removes the tombstoned
    blocks from the set. *)
Definition cleanup_spec (h : Heap) : Heap :=
  mkHeap (variables h) (constraints h) (blocks h)
         (List.filter (fun b => negb (Block.deleted (blocks h b))) (bs h)).

Definition Blocks_insert_spec (b : bptr) (h : Heap) : Heap :=
  mkHeap (variables h) (constraints h) (blocks h) (bs h ++ [b]).

(** Modelled from the spec: [Blocks::cost] is the sum of
    [w * (position - desired)^2] over the variables of the blocks. *)
Definition cost_spec (h : Heap) : double :=
  foldl (fun acc v =>
           let d := (position h v - Var.desiredPosition (variables h v))%float in
           (acc + Var.weight (variables h v) * d * d)%float)
        0%float (concat (map (fun b => Block.vars (blocks h b)) (bs h))).

Definition ops (path : bool) (freed : option (option cptr * bptr * bptr)) : BlockOps := {|
  slack := slack_spec;
  Blocks_new := Blocks_new_spec;
  totalOrder := fun h => concat (map (fun b => Block.vars (blocks h b)) (bs h));
  mergeLeft := fun _ h => h;
  cleanup := cleanup_spec;
  Blocks_split := fun _ _ h => h;
  Blocks_insert := Blocks_insert_spec;
  cost := cost_spec;
  Block_merge := fun lb _ _ h => (lb, h);
  Block_split := fun b _ h => (b, b, h);
  splitBetween := fun _ _ _ h => (freed, h);
  isActiveDirectedPathBetween := fun _ _ _ _ => path;
  findMinLM := fun _ h => (None, h);
  setUpInConstraints := fun _ h => h;
  setUpOutConstraints := fun _ h => h;
  updateWeightedPosition := fun _ h => h |}.

End Standin.

(** ** Concrete heaps for the examples *)

Module Ex.

Definition var (desired : double) (b : bptr) : Var.t :=
  Var.mk desired 1%float 1%float 0%float b 0%float [] [].

Definition con (l r : vptr) (gap : double) (act eq : bool) : Constraint.t :=
  Constraint.mk l r gap 0%float act eq false.

Definition blk (vs : list vptr) (p : double) : Block.t :=
  Block.mk vs p 1%float false [] [].

(** Every variable at desired position 0 in a block of its own, every
    constraint [x1 - x0 >= gap], inactive. *)
Definition apart (gap : double) : Heap :=
  mkHeap (fun v => var 0%float v) (fun _ => con 0 1 gap false false)
         (fun b => blk [b] 0%float) [0; 1].

(** Two variables merged into block 0 over the active constraint 0,
    [x1 - x0 >= 1]; constraint 1 is [x0 - x1 >= 1], which closes a cycle,
    and constraint 2 is [x1 - x0 >= 3]. *)
Definition merged : Heap :=
  mkHeap (fun v => Var.mk 0%float 1%float 1%float (if v =? 1 then 1%float else 0%float)
                          0 0%float [] [])
         (fun c => match c with
                   | 0 => con 0 1 1%float true false
                   | 1 => con 1 0 1%float false false
                   | _ => con 0 1 3%float false false
                   end)
         (fun b => blk [0; 1] (-0.5)%float) [0].

(** [merged] after the caller has raised the gap of the active constraint
    0 from 1 to 3: the offsets still put [x1] one unit right of [x0]. *)
Definition widened : Heap :=
  mkHeap (variables merged)
         (fun c => match c with
                   | 0 => con 0 1 3%float true false
                   | _ => constraints merged c
                   end)
         (blocks merged) (bs merged).

End Ex.

(** ** The order of binary64 values

    [SFcompare] on two finite values of one sign compares the pair
    (exponent, mantissa) lexicographically. *)
Definition cmp_key (e1 : Z) (m1 : positive) (e2 : Z) (m2 : positive) : comparison :=
  match Z.compare e1 e2 with
  | Eq => Pos.compare m1 m2
  | Lt => Lt
  | Gt => Gt
  end.

(** ** The vocabulary of the properties *)

Section Vocabulary.
Context {ops : BlockOps}.
Import IncSolver Solver.

Implicit Types (h : Heap) (l pre : list cptr) (c : cptr) (st : scan).

(** What the scan has established once the constraints [pre] were seen and
    none of them is an equality. *)
Record scanned h pre st : Prop := {
  scanned_none :
    deletePoint st = None -> v_ st = None /\ minSlack st = DBL_MAX;
  scanned_some i :
    deletePoint st = Some i ->
    exists c, v_ st = Some c /\ pre !! i = Some c /\ minSlack st = slack h c /\
              dlt (slack h c) DBL_MAX = true /\
              forall j c', j < i -> pre !! j = Some c' ->
                           PrimFloat.leb (slack h c') (slack h c) = false;
  scanned_min c' :
    c' ∈ pre -> dlt (slack h c') (minSlack st) = false }.

(** [c], at index [i], is the first equality constraint of [l]. *)
Definition first_equality h l i c : Prop :=
  l !! i = Some c /\ equality h c = true /\
  forall j c', j < i -> l !! j = Some c' -> equality h c' = false.

(** [l] has no equality constraint and [c], at index [i], is the first
    constraint of least slack, that slack being below [DBL_MAX]. *)
Definition first_least_slack h l i c : Prop :=
  l !! i = Some c /\
  Forall (fun c' => equality h c' = false) l /\
  dlt (slack h c) DBL_MAX = true /\
  (forall c', c' ∈ l -> dlt (slack h c') (slack h c) = false) /\
  (forall j c', j < i -> l !! j = Some c' ->
                PrimFloat.leb (slack h c') (slack h c) = false).

(** No constraint of [l] is an equality or has a slack below [DBL_MAX]. *)
Definition none_eligible h l : Prop :=
  Forall (fun c => equality h c = false /\ dlt (slack h c) DBL_MAX = false) l.

(** The condition under which [mostViolated] removes the constraint it
    returns. *)
Definition removable h c : bool :=
  equality h c || dlt (slack h c) ZERO_UPPERBOUND && negb (active h c).

(** The heap after [k] outer passes. *)
Fixpoint after_passes (k : nat) (h : Heap) : Heap :=
  match k with
  | 0 => h
  | S k => after_passes k (refine_pass h).2
  end.

(** No block of [l] exposes a constraint whose [lm] is below
    [LAGRANGIAN_TOLERANCE], each [findMinLM] running in the heap the
    previous one left. *)
Fixpoint no_split_point (l : list bptr) (h : Heap) : Prop :=
  match l with
  | [] => True
  | b :: l =>
      match (findMinLM b h).1 with
      | Some c => dlt (lm (findMinLM b h).2 c) LAGRANGIAN_TOLERANCE = false
      | None => True
      end /\ no_split_point l (findMinLM b h).2
  end.

(** The blocks of the block set are live and not empty, and every
    variable of [vs] is in exactly one of them. *)
Definition partitioned (h : Heap) (vs : list vptr) : Prop :=
  Forall (fun b => Block.deleted (blocks h b) = false /\ Block.vars (blocks h b) <> [])
         (bs h) /\
  concat ((fun b => Block.vars (blocks h b)) <$> bs h) ≡ₚ vs.

End Vocabulary.

(** Two variables and no constraint: [solve] returns false, and leaves
    each variable in a block of its own. *)
Definition solved_apart : Heap :=
  match Solver.solve (ops := Standin.ops false None)
          (Solver.new (ops := Standin.ops false None) [0; 1] [] (Ex.apart 0%float)).1
          (Solver.new (ops := Standin.ops false None) [0; 1] [] (Ex.apart 0%float)).2 with
  | Ok (_, h) => h
  | _ => Ex.apart 0%float
  end.


(** ** Loops that may fail

    A loop over [l] with the body [f], stopped by the first exception or
    undefined behaviour. *)
Fixpoint foldM {A B} (f : A -> B -> outcome A) (a : A) (l : list B) : outcome A :=
  match l with
  | [] => mret a
  | b :: l => a ← f a b; foldM f a l
  end.

(** ** The lists the constructor builds *)

(** What the two loops of the constructor leave in a variable: the
    constraints of [cs] that leave it and that enter it, after [out0] and
    [in0]. *)
Definition linked_var (h : Heap) (cs : list cptr) (out0 in0 : list cptr)
    (x : Var.t) (v : vptr) : Var.t :=
  Var.set_in (in0 ++ filter (fun c => Constraint.right (constraints h c) = v) cs)
    (Var.set_out (out0 ++ filter (fun c => Constraint.left (constraints h c) = v) cs) x).

(** ** [Solver::constraintGraphIsCyclic]

    The nodes are allocated with [new]: they live in a map from addresses
    to nodes, [delete u] removes the entry, and reading a node that is not
    there is undefined behaviour. [set<node*>] is a finite set of pointers
    that may be null; [varmap] is a finite map. *)

Module Cyclic.
Import stdpp.gmap.

(** A [node*]: null or the address of a node. The node made for [vs[i]]
    is at address [i]. *)
Definition nptr := option nat.

(** [struct node]. *)
Record node := mkNode {
  in_ : gset nptr;
  out : gset nptr }.

(** The locals [graph], the nodes on the heap, and [varmap]. *)
Record state := mkState {
  graph : list nat;
  nodes : gmap nat node;
  varmap : gmap vptr nptr }.

(** [varmap[v]]: a key that is absent is entered with a null pointer. *)
Definition at_ (m : gmap vptr nptr) (v : vptr) : nptr := default None (m !! v).

(** The first loop, from index [i] on, [k] turns left. *)
Fixpoint make_nodes (vs : list vptr) (i k : nat) (st : state) : outcome state :=
  match k with
  | 0 => mret st
  | S k =>
      v ← deref (vs !! i);
      make_nodes vs (S i) k
        (mkState (graph st ++ [i]) (<[i := mkNode ∅ ∅]> (nodes st))
                 (<[v := Some i]> (varmap st)))
  end.

(** [u->in.insert(p)] and [u->out.insert(p)]. *)
Definition insert_in (u : nptr) (ns : gmap nat node) (p : nptr) : outcome (gmap nat node) :=
  a ← deref u; nd ← deref (ns !! a);
  mret (<[a := mkNode ({[p]} ∪ in_ nd) (out nd)]> ns).

Definition insert_out (u : nptr) (ns : gmap nat node) (p : nptr) : outcome (gmap nat node) :=
  a ← deref u; nd ← deref (ns !! a);
  mret (<[a := mkNode (in_ nd) ({[p]} ∪ out nd)]> ns).

(** The body of the second loop for the variable [v]. *)
Definition fill_node (h : Heap) (m : gmap vptr nptr) (ns : gmap nat node) (v : vptr)
    : outcome (gmap nat node) :=
  ns ← foldM (fun ns c => insert_in (at_ m v) ns (at_ m (Constraint.left (constraints h c))))
             ns (Var.in_ (variables h v));
  foldM (fun ns c => insert_out (at_ m v) ns (at_ m (Constraint.right (constraints h c))))
        ns (Var.out (variables h v)).

Fixpoint fill (h : Heap) (m : gmap vptr nptr) (vs : list vptr) (i k : nat)
    (ns : gmap nat node) : outcome (gmap nat node) :=
  match k with
  | 0 => mret ns
  | S k => v ← deref (vs !! i); ns ← fill_node h m ns v; fill h m vs (S i) k ns
  end.

(** The [for] loop that looks for a node with no incoming edge: its index
    in [graph] and its address, or [None] when [i] reaches [graph.end()]. *)
Fixpoint find_source (ns : gmap nat node) (g : list nat) (i : nat)
    : outcome (option (nat * nat)) :=
  match g with
  | [] => mret None
  | u :: g =>
      nd ← deref (ns !! u);
      if size (in_ nd) =? 0 then mret (Some (i, u)) else find_source ns g (S i)
  end.

(** [v->in.erase(u)] for a [v] of [u->out]. *)
Definition erase_in (u : nat) (ns : gmap nat node) (p : nptr) : outcome (gmap nat node) :=
  v ← deref p; nd ← deref (ns !! v);
  mret (<[v := mkNode (in_ nd ∖ {[Some u]}) (out nd)]> ns).

(** [graph.erase(i)], the loop over [u->out], [delete u]. *)
Definition remove_source (i u : nat) (g : list nat) (ns : gmap nat node)
    : outcome (list nat * gmap nat node) :=
  nd ← deref (ns !! u);
  ns ← foldM (erase_in u) ns (elements (out nd));
  mret (delete i g, delete u ns).

(** The [while] loop, with fuel ([None]: out of fuel). *)
Fixpoint remove_sources (fuel : nat) (g : list nat) (ns : gmap nat node)
    : option (outcome bool) :=
  match g with
  | [] => Some (Ok false)
  | _ =>
      match fuel with
      | 0 => None
      | S fuel =>
          match find_source ns g 0 with
          | Ok None => Some (Ok true)
          | Ok (Some (i, u)) =>
              match remove_source i u g ns with
              | Ok (g, ns) => remove_sources fuel g ns
              | Throw e => Some (Throw e)
              | Undefined => Some Undefined
              end
          | Throw e => Some (Throw e)
          | Undefined => Some Undefined
          end
      end
  end.

(** The function, with one unit of fuel for each node of [graph]. The
    loop that deletes what is left of [graph] before [return false] runs
    on an empty vector. *)
Definition constraintGraphIsCyclic (h : Heap) (n : nat) (vs : list vptr)
    : option (outcome bool) :=
  match (st ← make_nodes vs 0 n (mkState [] ∅ ∅);
         ns ← fill h (varmap st) vs 0 n (nodes st);
         mret (graph st, ns)) with
  | Ok (g, ns) => remove_sources (length g) g ns
  | Throw e => Some (Throw e)
  | Undefined => Some Undefined
  end.

End Cyclic.

(** ** The vocabulary of the graph check *)

(** The directed graph of the constraints [cs]: an edge from the left to
    the right variable of each constraint. *)
Definition constraint_edge (h : Heap) (cs : list cptr) (u v : vptr) : Prop :=
  exists c, c ∈ cs /\ Constraint.left (constraints h c) = u /\
            Constraint.right (constraints h c) = v.

(** The same edges between the indices of [vs], which are the addresses
    of the nodes. *)
Definition index_edge (h : Heap) (vs : list vptr) (cs : list cptr) (i j : nat) : Prop :=
  exists u v, vs !! i = Some u /\ vs !! j = Some v /\ constraint_edge h cs u v.

(** An outcome that is a value or undefined behaviour, not an exception. *)
Definition returns {A} (o : outcome A) : Prop := o = Undefined \/ exists a, o = Ok a.

Section GraphVocabulary.
Import stdpp.gmap stdpp.relations Cyclic.

(** Each element of [l] has an edge to the next. *)
Fixpoint chain (R : relation nat) (l : list nat) : Prop :=
  match l with
  | a :: (b :: _) as t => R a b /\ chain R t
  | _ => True
  end.

(** The invariant of the [while] loop for a graph [R] on the addresses:
    the nodes of [graph] are the live ones; a node's [in] holds its
    predecessors still in [graph], its [out] all its successors, which are
    all still in [graph]; and every cycle lies in [graph]. *)
Record graph_inv (R : relation nat) (g : list nat) (ns : gmap nat node) : Prop := {
  inv_nodup : NoDup g;
  inv_dom i : i ∈ g <-> is_Some (ns !! i);
  inv_in i nd p :
    ns !! i = Some nd -> p ∈ in_ nd <-> exists j, p = Some j /\ j ∈ g /\ R j i;
  inv_out i nd p :
    ns !! i = Some nd -> p ∈ out nd <-> exists j, p = Some j /\ R i j;
  inv_closed i j : i ∈ g -> R i j -> j ∈ g;
  inv_cycles x : tc R x x -> x ∈ g }.

(** What the second loop leaves in the node of a variable [v]. *)
Definition filled (h : Heap) (m : gmap vptr nptr) (v : vptr) (nd : node) : Prop :=
  (forall p, p ∈ in_ nd <->
     exists c, c ∈ Var.in_ (variables h v) /\
               p = at_ m (Constraint.left (constraints h c))) /\
  (forall p, p ∈ out nd <->
     exists c, c ∈ Var.out (variables h v) /\
               p = at_ m (Constraint.right (constraints h c))).

(** Some node still in [graph] holds a null pointer in [in] or in [out]. *)
Definition stuck (g : list nat) (ns : gmap nat node) : Prop :=
  exists x nd, x ∈ g /\ ns !! x = Some nd /\ (None ∈ in_ nd \/ None ∈ out nd).

End GraphVocabulary.

(** [Ex.merged] once the loops of the constructor have linked the
    constraints 0 and 1 to the variables 0 and 1: the two constraints
    form a cycle. *)
Definition linked_cycle : Heap :=
  foldl Solver.link (foldl Solver.clear_in_out Ex.merged [0; 1]) [0; 1].



(** The graph of the one edge [0 -> 1] as the loop may meet it, the sink
    first in [graph]. *)
Definition path_graph : list nat * stdpp.gmap.gmap nat Cyclic.node :=
  ([1; 0],
   <[0 := Cyclic.mkNode ∅ {[Some 1]}]> (<[1 := Cyclic.mkNode {[Some 0]} ∅]> ∅)).


(** * libcola: the bounds of clusters

    [src/cola/libcola/cluster.cpp]. [vpsc::Rectangle] is declared in
    rectangle.h, which is not among the sources: the code reads a
    rectangle through its four accessors and builds one with its
    constructor, and these are the operations of [RectangleOps]. *)

Class RectangleOps := {
  Rectangle : Type;
  getMinX : Rectangle -> double;
  getMaxX : Rectangle -> double;
  getMinY : Rectangle -> double;
  getMaxY : Rectangle -> double;
  new_Rectangle : double -> double -> double -> double -> Rectangle }.

(** [std::min(a, b)] is [(b < a) ? b : a] and [std::max(a, b)] is
    [(a < b) ? b : a]. *)
Definition std_min (a b : double) : double := if dlt b a then b else a.
Definition std_max (a b : double) : double := if dlt a b then b else a.

Module Cluster.
Section WithRectangle.
Context {ops : RectangleOps}.

(** The four locals [minX], [maxX], [minY], [maxY] of
    [computeBoundingRect] ([xMin], [xMax], [yMin], [yMax] in
    [RectangularCluster::computeBoundary]). *)
Record box := mkBox {
  minX : double;
  maxX : double;
  minY : double;
  maxY : double }.

(** [DBL_MAX, -DBL_MAX, DBL_MAX, -DBL_MAX]. *)
Definition empty_box : box := mkBox DBL_MAX (- DBL_MAX)%float DBL_MAX (- DBL_MAX)%float.

(** The part of a [Cluster] that [computeBoundingRect] reads and writes.
    The child clusters form a tree. *)
#[warnings="-register-all"]
Inductive t := mk {
  nodes : list nat;
  clusters : list t;
  bounds : Rectangle }.

(** The body of both loops of [computeBoundingRect]:
    [minX=min(r.getMinX(),minX)] and so on, [min] and [max] being those of
    [std]. *)
Definition take (b : box) (r : Rectangle) : box :=
  mkBox (std_min (getMinX r) (minX b)) (std_max (getMaxX r) (maxX b))
        (std_min (getMinY r) (minY b)) (std_max (getMaxY r) (maxY b)).

(** The loop over the child clusters, [f] being the recursive call. *)
Fixpoint over_clusters (f : t -> outcome t) (cs : list t) (b : box)
    : outcome (list t * box) :=
  match cs with
  | [] => mret ([], b)
  | c :: cs =>
      c' ← f c;
      r ← over_clusters f cs (take b (bounds c'));
      mret (c' :: r.1, r.2)
  end.

(** The loop over the nodes; [rs[*i]] out of range is undefined. *)
Definition over_nodes (rs : list Rectangle) (l : list nat) (b : box) : outcome box :=
  foldM (fun b i => r ← deref (rs !! i); mret (take b r)) b l.

Fixpoint computeBoundingRect (rs : list Rectangle) (c : t) : outcome t :=
  match c with
  | mk l cs _ =>
      r ← over_clusters (computeBoundingRect rs) cs empty_box;
      b ← over_nodes rs l r.2;
      mret (mk l r.1 (new_Rectangle (minX b) (maxX b) (minY b) (maxY b)))
  end.

(** Every node index of the cluster and of its descendants is an index
    of [rs]. *)
Fixpoint in_range (rs : list Rectangle) (c : t) : Prop :=
  match c with
  | mk l cs _ =>
      Forall (fun i => i < length rs) l /\
      (fix all (cs : list t) : Prop :=
         match cs with
         | [] => True
         | c :: cs => in_range rs c /\ all cs
         end) cs
  end.

(** No accessor of [r] gives a NaN. *)
Definition no_nan (r : Rectangle) : Prop :=
  is_nan (getMinX r) = false /\ is_nan (getMaxX r) = false /\
  is_nan (getMinY r) = false /\ is_nan (getMaxY r) = false.

(** The box [b] is around [r], as far as [<] can tell. *)
Definition around (b : box) (r : Rectangle) : Prop :=
  dlt (getMinX r) (minX b) = false /\ dlt (maxX b) (getMaxX r) = false /\
  dlt (getMinY r) (minY b) = false /\ dlt (maxY b) (getMaxY r) = false.

(** Each side of [b] is the initial value or a side of a rectangle of
    [l]. *)
Definition attained (b : box) (l : list Rectangle) : Prop :=
  (minX b = DBL_MAX \/ exists r, r ∈ l /\ minX b = getMinX r) /\
  (maxX b = (- DBL_MAX)%float \/ exists r, r ∈ l /\ maxX b = getMaxX r) /\
  (minY b = DBL_MAX \/ exists r, r ∈ l /\ minY b = getMinY r) /\
  (maxY b = (- DBL_MAX)%float \/ exists r, r ∈ l /\ maxY b = getMaxY r).

Definition box_no_nan (b : box) : Prop :=
  is_nan (minX b) = false /\ is_nan (maxX b) = false /\
  is_nan (minY b) = false /\ is_nan (maxY b) = false.

(** What holds of the box once the rectangles [seen] have been read: no
    side is a NaN, no side of a rectangle read is outside, and each side
    comes from a rectangle read or is still the initial one. *)
Definition bounding (b : box) (seen : list Rectangle) : Prop :=
  box_no_nan b /\ (forall r, r ∈ seen -> around b r) /\ attained b seen.

(** The box [computeBoundingRect] builds the bounds of a cluster from,
    given its nodes [l] and its child clusters as the recursive calls left
    them. *)
Definition bounding_box (rs : list Rectangle) (l : list nat) (cs' : list t) : box :=
  foldl take empty_box ((bounds <$> cs') ++ omap (fun i => rs !! i) l).

(** Induction on a tree of clusters. *)
Section TreeInduction.
Variable P : t -> Prop.
Hypothesis step : forall l cs r0, Forall P cs -> P (mk l cs r0).

Fixpoint tree_ind (c : t) : P c :=
  match c with
  | mk l cs r0 =>
      step l cs r0
        ((fix all (cs : list t) : Forall P cs :=
            match cs with
            | [] => Forall_nil P
            | c :: cs => Forall_cons P c cs (tree_ind c) (all cs)
            end) cs)
  end.

End TreeInduction.

End WithRectangle.
End Cluster.

Module RectangularCluster.
Section WithRectangle.
Context {ops : RectangleOps}.
Import Cluster.

(** The body of the loop:
    [xMin=std::min(xMin,rs[nodes[i]]->getMinX())] and so on. *)
Definition widen (b : box) (r : Rectangle) : box :=
  mkBox (std_min (minX b) (getMinX r)) (std_max (maxX b) (getMaxX r))
        (std_min (minY b) (getMinY r)) (std_max (maxY b) (getMaxY r)).

(** [RectangularCluster::computeBoundary] on the nodes [l]: the new
    [hullX] and [hullY]. *)
Definition computeBoundary (rs : list Rectangle) (l : list nat)
    : outcome (list double * list double) :=
  b ← foldM (fun b i => r ← deref (rs !! i); mret (widen b r)) empty_box l;
  mret ([maxX b; maxX b; minX b; minX b], [minY b; maxY b; maxY b; minY b]).

End WithRectangle.
End RectangularCluster.

Module ConvexCluster.
Section WithRectangle.
Context {ops : RectangleOps}.

(** [hull::convex] is defined in convex_hull.cpp, not among the sources:
    it is given the coordinates of the points and returns the indices of
    those on the hull. *)
Context (convex : list double -> list double -> list nat).

(** [a[i] = v] on a [valarray]: out of range is undefined. *)
Definition store (a : list double) (i : nat) (v : double) : outcome (list double) :=
  if decide (i < length a) then Ok (<[i := v]> a) else Undefined.

(** The locals [X], [Y] and [pctr]. *)
Record corners := mkCorners {
  X : list double;
  Y : list double;
  pctr : nat }.

(** The body of the first loop: bottom right, top right, top left,
    bottom left. The stores keep [pctr] below [n], so [pctr++] does not
    wrap. *)
Definition push_corners (st : corners) (r : Rectangle) : outcome corners :=
  x ← store (X st) (pctr st) (getMaxX r);
  y ← store (Y st) (pctr st) (getMinY r);
  x ← store x (pctr st + 1) (getMaxX r);
  y ← store y (pctr st + 1) (getMaxY r);
  x ← store x (pctr st + 2) (getMinX r);
  y ← store y (pctr st + 2) (getMaxY r);
  x ← store x (pctr st + 3) (getMinX r);
  y ← store y (pctr st + 3) (getMinY r);
  mret (mkCorners x y (pctr st + 4)).

(** The body of the second loop for [hull[j] = k]: the entries [j] of
    [hullX], [hullY], [hullRIDs] and [hullCorners]. *)
Definition hull_point (st : corners) (k : nat) : outcome (double * double * nat * nat) :=
  x ← deref (X st !! k);
  y ← deref (Y st !! k);
  mret (x, y, k / 4, k mod 4).

(** [ConvexCluster::computeBoundary] on the nodes [l]: the four arrays,
    entry by entry. [n] is an [unsigned], of 32 bits; a [valarray] of
    [n] doubles holds zeros. *)
Definition computeBoundary (rs : list Rectangle) (l : list nat)
    : outcome (list (double * double * nat * nat)) :=
  let n := Z.to_nat ((4 * Z.of_nat (length l)) mod 2 ^ 32) in
  st ← foldM (fun st i => r ← deref (rs !! i); push_corners st r)
             (mkCorners (replicate n 0%float) (replicate n 0%float) 0) l;
  foldM (fun acc k => p ← hull_point st k; mret (acc ++ [p])) [] (convex (X st) (Y st)).

(** The corner [c] of [r], as the first loop numbers them. *)
Definition corner_x (c : nat) (r : Rectangle) : double :=
  match c with 0 | 1 => getMaxX r | _ => getMinX r end.

Definition corner_y (c : nat) (r : Rectangle) : double :=
  match c with 0 | 3 => getMinY r | _ => getMaxY r end.

(** The coordinates of the corners of the rectangles [l], four for each
    rectangle. *)
Definition corners_x (l : list Rectangle) : list double :=
  r ← l; [getMaxX r; getMaxX r; getMinX r; getMinX r].

Definition corners_y (l : list Rectangle) : list double :=
  r ← l; [getMinY r; getMaxY r; getMaxY r; getMinY r].

End WithRectangle.
End ConvexCluster.

(** A stand-in for rectangle.h, used only to run the code on concrete
    rectangles: a rectangle is the four values its accessors return. *)
Definition sides : RectangleOps := {|
  Rectangle := double * double * double * double;
  getMinX r := r.1.1.1;
  getMaxX r := r.1.1.2;
  getMinY r := r.1.2;
  getMaxY r := r.2;
  new_Rectangle x X y Y := (x, X, y, Y) |}.

(** A stand-in for [hull::convex] that keeps every point. *)
Definition every_point (X Y : list double) : list nat := seq 0 (length X).

(** The unit square, a second rectangle, and one whose sides are NaN. *)
Definition three_rectangles : list (Rectangle (RectangleOps := sides)) :=
  [(0, 1, 0, 1); (2, 3, -1, 4); (nan, nan, nan, nan)]%float.

(** A cluster of the node 0 with one child cluster of the node 1. *)
Definition two_clusters : Cluster.t (ops := sides) :=
  Cluster.mk (ops := sides) [0]
    [Cluster.mk (ops := sides) [1] [] (0, 0, 0, 0)%float] (0, 0, 0, 0)%float.

(** * Properties *)

(** ** Doubles *)

Lemma SFcompare_finite s1 m1 e1 s2 m2 e2 :
  SFcompare (S754_finite s1 m1 e1) (S754_finite s2 m2 e2) =
  Some (if s1 then if s2 then CompOpp (cmp_key e1 m1 e2 m2) else Lt
        else if s2 then Gt else cmp_key e1 m1 e2 m2).
Proof.
  unfold cmp_key. simpl. change (PosDef.Pos.compare_cont Eq m1 m2) with (Pos.compare m1 m2).
  change (IntDef.Z.compare e1 e2) with (Z.compare e1 e2).
  destruct s1, s2; try reflexivity; destruct (Z.compare e1 e2); reflexivity.
Qed.

Lemma cmp_key_spec e1 m1 e2 m2 :
  match cmp_key e1 m1 e2 m2 with
  | Eq => e1 = e2 /\ m1 = m2
  | Lt => (e1 < e2)%Z \/ (e1 = e2 /\ (m1 < m2)%positive)
  | Gt => (e2 < e1)%Z \/ (e1 = e2 /\ (m2 < m1)%positive)
  end.
Proof.
  unfold cmp_key. destruct (Z.compare_spec e1 e2); [|tauto|tauto].
  destruct (Pos.compare_spec m1 m2); tauto.
Qed.

Ltac key_cases :=
  repeat match goal with
  | |- context [cmp_key ?a ?b ?c ?d] =>
      let H := fresh "K" in
      pose proof (cmp_key_spec a b c d) as H; destruct (cmp_key a b c d)
  end.

Lemma SF_le_lt_trans x y z : SFleb x y = true -> SFltb y z = true -> SFltb x z = true.
Proof.
  unfold SFleb, SFltb.
  destruct x as [sx|sx| |sx mx ex], y as [sy|sy| |sy my ey], z as [sz|sz| |sz mz ez];
    rewrite ?SFcompare_finite; cbn -[cmp_key];
    try discriminate; try reflexivity; 
    try (destruct sx, sy, sz; cbn -[cmp_key]; try discriminate; try reflexivity; 
    key_cases; cbn; intros; try discriminate; try reflexivity; exfalso; lia).
Qed.

Lemma SF_lt_le x y : SFltb x y = true -> SFleb x y = true.
Proof. unfold SFleb, SFltb. destruct (SFcompare x y) as [[]|]; done. Qed.

Lemma SF_lt_irrefl x : SFltb x x = false.
Proof.
  unfold SFltb. destruct x as [s|s| |s m e]; rewrite ?SFcompare_finite; cbn -[cmp_key];
   try reflexivity; destruct s; try reflexivity; key_cases; try reflexivity; exfalso; lia.
Qed.


Section NoNaN.
Variables prec emax : Z.

Lemma shr_1_nonneg mrs : (0 <= shr_m mrs)%Z -> (0 <= shr_m (shr_1 mrs))%Z.
Proof. destruct mrs as [[|[p|p|]|p] r s]; simpl; lia. Qed.

Lemma iter_pos_shr_1_nonneg p mrs :
  (0 <= shr_m mrs)%Z -> (0 <= shr_m (SpecFloat.iter_pos shr_1 p mrs))%Z.
Proof.
  revert mrs. induction p as [p IH|p IH|]; intros mrs H; simpl.
  - apply IH, IH, shr_1_nonneg, H.
  - apply IH, IH, H.
  - apply shr_1_nonneg, H.
Qed.

Lemma shr_fexp_nonneg m e l :
  (0 <= m)%Z -> (0 <= shr_m (fst (shr_fexp prec emax m e l)))%Z.
Proof.
  intros H. unfold shr_fexp, shr.
  assert (H0 : (0 <= shr_m (shr_record_of_loc m l))%Z) by (destruct l as [|[]]; exact H).
  destruct (_ - e)%Z; simpl; auto using iter_pos_shr_1_nonneg.
Qed.

Lemma round_nearest_even_nonneg m l : (0 <= m)%Z -> (0 <= round_nearest_even m l)%Z.
Proof.
  intros H. destruct l as [|[]]; simpl; try lia.
  destruct (Z.even m); change (IntDef.Z.add m 1) with (m + 1)%Z; lia.
Qed.

Lemma binary_round_aux_not_nan sx mx ex lx :
  (0 <= mx)%Z -> binary_round_aux prec emax sx mx ex lx <> S754_nan.
Proof.
  intros H. unfold binary_round_aux.
  pose proof (shr_fexp_nonneg mx ex lx H) as H1.
  destruct (shr_fexp prec emax mx ex lx) as [mrs' e']. simpl in H1.
  pose proof (shr_fexp_nonneg _ e' loc_Exact
                (round_nearest_even_nonneg _ (loc_of_shr_record mrs') H1)) as H2.
  destruct (shr_fexp prec emax _ e' loc_Exact) as [mrs'' e'']. simpl in H2.
  destruct (shr_m mrs''); [discriminate| |lia].
  destruct (IntDef.Z.leb _ _); discriminate.
Qed.

Lemma binary_normalize_not_nan m e szero : binary_normalize prec emax m e szero <> S754_nan.
Proof.
  destruct m; simpl; [discriminate| |]; unfold binary_round;
    destruct (shl_align _ _ _); apply binary_round_aux_not_nan; lia.
Qed.

Lemma SFdiv_core_binary_nonneg m1 e1 m2 e2 :
  (0 <= fst (fst (SFdiv_core_binary prec emax (Z.pos m1) e1 (Z.pos m2) e2)))%Z.
Proof.
  unfold SFdiv_core_binary.
  set (s := IntDef.Z.sub _ _).
  set (m' := match s with Z0 => _ | Z.pos _ => _ | Z.neg _ => _ end).
  assert (Hm : (0 <= m')%Z).
  { subst m'. destruct s; try lia. apply Z.shiftl_nonneg. lia. }
  change IntDef.Z.div_eucl with Z.div_eucl.
  pose proof (Z_div_mod m' (Z.pos m2) ltac:(lia)) as H.
  destruct (Z.div_eucl m' (Z.pos m2)) as [q r]. simpl. nia.
Qed.

(** A finite dividend over a finite, non-zero divisor is not a NaN. *)
Lemma SFdiv_not_nan x y :
  match x with S754_zero _ | S754_finite _ _ _ => True | _ => False end ->
  match y with S754_finite _ _ _ => True | _ => False end ->
  SFdiv prec emax x y <> S754_nan.
Proof.
  destruct x as [sx|sx| |sx mx ex], y as [sy|sy| |sy my ey]; simpl; try tauto; try discriminate.
  intros _ _.
  pose proof (SFdiv_core_binary_nonneg mx ex my ey) as H.
  destruct (SFdiv_core_binary _ _ _ _ _ _) as [[mz ez] lz]. simpl in H.
  by apply binary_round_aux_not_nan.
Qed.

Lemma SFadd_not_nan x y :
  match x with S754_zero _ | S754_finite _ _ _ => True | _ => False end ->
  y <> S754_nan ->
  SFadd prec emax x y <> S754_nan.
Proof.
  destruct x as [sx|sx| |sx mx ex], y as [sy|sy| |sy my ey]; simpl; try tauto; try discriminate.
  - intros _ _. destruct sx, sy; discriminate.
  - intros _ _. apply binary_normalize_not_nan.
Qed.
End NoNaN.

Lemma SFcompare_refl x : x <> S754_nan -> SFcompare x x = Some Eq.
Proof.
  destruct x as [s|s| |s m e]; rewrite ?SFcompare_finite; cbn -[cmp_key]; try done.
  - by destruct s.
  - intros _. destruct s; key_cases; try reflexivity; exfalso; lia.
Qed.

Lemma is_nan_false x : is_nan x = false <-> Prim2SF x <> S754_nan.
Proof.
  unfold is_nan. rewrite FloatAxioms.eqb_spec. unfold SFeqb. split.
  - intros H E. rewrite E in H. discriminate.
  - intros H. by rewrite SFcompare_refl.
Qed.

Lemma is_finite_SF x :
  is_finite x = true ->
  match Prim2SF x with S754_zero _ | S754_finite _ _ _ => True | _ => False end.
Proof.
  unfold is_finite, is_infinity, is_nan. rewrite !FloatAxioms.eqb_spec, FloatAxioms.abs_spec.
  replace (Prim2SF infinity) with (S754_infinity false) by reflexivity.
  destruct (Prim2SF x) as [s|s| |s m e]; simpl; try done.
  by destruct s.
Qed.

Lemma nonzero_SF x :
  is_finite x = true -> (x =? 0)%float = false ->
  match Prim2SF x with S754_finite _ _ _ => True | _ => False end.
Proof.
  intros Hf. apply is_finite_SF in Hf. rewrite FloatAxioms.eqb_spec.
  replace (Prim2SF 0) with (S754_zero false) by reflexivity.
  destruct (Prim2SF x) as [s|s| |s m e]; simpl; try done.
Qed.

Lemma add_div_not_nan (p o s : double) :
  is_finite p = true -> is_finite o = true -> is_finite s = true -> (s =? 0)%float = false ->
  let x := (p + o / s)%float in (x =? x)%float = true.
Proof.
  intros Hp Ho Hs Hz x.
  assert (E : is_nan x = false).
  { apply is_nan_false. subst x. rewrite FloatAxioms.add_spec, FloatAxioms.div_spec.
    apply SFadd_not_nan; [by apply is_finite_SF|].
    apply SFdiv_not_nan; [by apply is_finite_SF|by apply nonzero_SF]. }
  unfold is_nan in E. by destruct (x =? x)%float.
Qed.

Lemma dlt_irrefl x : dlt x x = false.
Proof. unfold dlt. rewrite ltb_spec. apply SF_lt_irrefl. Qed.

Lemma dle_dlt_trans x y z : PrimFloat.leb x y = true -> dlt y z = true -> dlt x z = true.
Proof. unfold dlt. rewrite !ltb_spec, leb_spec. apply SF_le_lt_trans. Qed.

Lemma dlt_trans x y z : dlt x y = true -> dlt y z = true -> dlt x z = true.
Proof.
  intros H. apply dle_dlt_trans. revert H. unfold dlt.
  rewrite ltb_spec, leb_spec. apply SF_lt_le.
Qed.

(** ** [mostViolated] *)

Section MostViolated.
Context {ops : BlockOps}.
Import IncSolver.

Implicit Types (h : Heap) (l pre : list cptr) (c : cptr) (st : scan).

Lemma scanned_init h : scanned h [] (mkScan DBL_MAX None None).
Proof. split; simpl; [done|done|]. intros c' H. by apply elem_of_nil in H. Qed.

Lemma scanned_step h pre st c :
  scanned h pre st -> equality h c = false ->
  scanned h (pre ++ [c])
    (if dlt (slack h c) (minSlack st)
     then mkScan (slack h c) (Some c) (Some (length pre)) else st).
Proof.
  intros [Hn Hs Hm] He. destruct (dlt (slack h c) (minSlack st)) eqn:Hlt.
  - split; simpl; [done| |].
    + intros i [= <-]. exists c. split; [done|]. split.
      { by rewrite lookup_app_r, Nat.sub_diag. }
      split; [done|]. split.
      { destruct (deletePoint st) as [i|] eqn:Hd.
        - destruct (Hs i eq_refl) as (c0 & _ & _ & Hmin & Hmax & _).
          rewrite Hmin in Hlt. eauto using dlt_trans.
        - destruct (Hn eq_refl) as [_ Hmin]. by rewrite Hmin in Hlt. }
      intros j c' Hj Hc'. rewrite lookup_app_l in Hc' by done.
      apply list_elem_of_lookup_2, Hm in Hc'.
      destruct (PrimFloat.leb (slack h c') (slack h c)) eqn:Hle; [|done].
      by rewrite (dle_dlt_trans _ _ _ Hle Hlt) in Hc'.
    + intros c' [Hc'|Hc']%elem_of_app.
      * apply Hm in Hc'.
        destruct (dlt (slack h c') (slack h c)) eqn:Hlt'; [|done].
        by rewrite (dlt_trans _ _ _ Hlt' Hlt) in Hc'.
      * apply list_elem_of_singleton in Hc' as ->. apply dlt_irrefl.
  - split; [done| |].
    + intros i Hi. destruct (Hs i Hi) as (c0 & Hv & Hi' & Hmin & Hmax & Hfirst).
      exists c0. split; [done|]. split.
      { apply lookup_app_l_Some, Hi'. }
      split; [done|]. split; [done|].
      intros j c' Hj Hc'. apply (Hfirst j c' Hj).
      rewrite lookup_app_l in Hc'; [done|].
      apply lookup_lt_Some in Hi'. lia.
    + intros c' [Hc'|Hc']%elem_of_app; [by apply Hm|].
      by apply list_elem_of_singleton in Hc' as ->.
Qed.

(** A scan over constraints none of which is an equality. *)
Lemma scan_no_equality h l : forall pre st,
  scanned h pre st ->
  Forall (fun c => equality h c = false) l ->
  scanned h (pre ++ l) (mostViolated_scan h l (length pre) st).
Proof.
  induction l as [|c l IH]; intros pre st Hst Hl; simpl.
  - by rewrite app_nil_r.
  - inversion Hl as [|? ? Hc Hl']; subst. rewrite Hc. simpl.
    pose proof (scanned_step h pre st c Hst Hc) as Hstep.
    replace (pre ++ c :: l) with ((pre ++ [c]) ++ l) by by rewrite <- app_assoc.
    replace (S (length pre)) with (length (pre ++ [c]))
      by (rewrite length_app; simpl; lia).
    destruct (dlt (slack h c) (minSlack st)); by apply IH.
Qed.

(** The scan stops at the first equality constraint. *)
Lemma scan_first_equality h l : forall i st k c,
  l !! k = Some c -> equality h c = true ->
  (forall j c', j < k -> l !! j = Some c' -> equality h c' = false) ->
  mostViolated_scan h l i st = mkScan (slack h c) (Some c) (Some (i + k)).
Proof.
  induction l as [|c0 l IH]; intros i st k c Hk He Hfirst; [done|].
  destruct k as [|k].
  - injection Hk as ->. simpl. rewrite He. simpl. by rewrite Nat.add_0_r.
  - assert (equality h c0 = false) as E by (apply (Hfirst 0); [lia|done]).
    simpl. rewrite E. simpl.
    replace (i + S k) with (S i + k) by lia.
    destruct (dlt _ _); apply IH; try done;
      intros j c' Hj Hc'; apply (Hfirst (S j) c'); (done || lia).
Qed.

End MostViolated.

Section MostViolatedSpec.
Context {ops : BlockOps}.
Import IncSolver.

Implicit Types (h : Heap) (l : list cptr) (c : cptr).

Lemma first_equality_dec h l :
  Forall (fun c => equality h c = false) l \/ exists i c, first_equality h l i c.
Proof.
  induction l as [|c0 l [IH|(i & c & Hi & He & Hfirst)]].
  - by left.
  - destruct (equality h c0) eqn:E.
    + right. exists 0, c0. repeat split; [done|]. intros j c' Hj. lia.
    + left. by constructor.
  - right. destruct (equality h c0) eqn:E.
    + exists 0, c0. repeat split; [done|]. intros j c' Hj. lia.
    + exists (S i), c. repeat split; [done..|].
      intros [|j] c' Hj Hc'; simpl in Hc'; [by injection Hc' as <-|].
      apply (Hfirst j c'); [lia|done].
Qed.

(** Swap-remove takes out exactly the element at the index given. *)
Lemma swap_remove_spec l i c :
  l !! i = Some c ->
  exists l', swap_remove i l = Ok l' /\ length l = S (length l') /\ l ≡ₚ c :: l'.
Proof.
  intros Hi. pose proof (lookup_lt_Some _ _ _ Hi) as Hlt.
  destruct (decide (l = [])) as [->|Hne]; [done|].
  destruct (exists_last Hne) as (l0 & back & ->).
  unfold swap_remove. rewrite length_app in *. simpl in *.
  replace (length l0 + 1 - 1) with (length l0) by lia.
  rewrite lookup_app_r, Nat.sub_diag by lia. simpl.
  eexists. split; [done|].
  destruct (decide (i = length l0)) as [->|Hi'].
  - rewrite lookup_app_r, Nat.sub_diag in Hi by lia. injection Hi as ->.
    rewrite insert_app_r_alt, Nat.sub_diag by lia. simpl.
    rewrite take_app_length. split; [lia|]. by rewrite Permutation_app_comm.
  - assert (i < length l0) as Hi0 by lia.
    rewrite lookup_app_l in Hi by done.
    rewrite insert_app_l by done.
    rewrite take_app_length' by by rewrite length_insert.
    rewrite length_insert. split; [lia|].
    rewrite insert_take_drop by done.
    rewrite <- (take_drop_middle l0 i c Hi) at 1.
    rewrite <- !Permutation_middle, app_nil_r. apply perm_swap.
Qed.

(** Where the scan of [mostViolated] ends. *)
Lemma scan_result h l :
  (exists i c, (first_equality h l i c \/ first_least_slack h l i c) /\
               mostViolated_scan h l 0 (mkScan DBL_MAX None None) =
               mkScan (slack h c) (Some c) (Some i)) \/
  (none_eligible h l /\
   mostViolated_scan h l 0 (mkScan DBL_MAX None None) = mkScan DBL_MAX None None).
Proof.
  destruct (first_equality_dec h l) as [Hno|(i & c & Hfe)].
  - pose proof (scan_no_equality h l [] _ (scanned_init h) Hno) as [Hn Hs Hm].
    simpl in *.
    destruct (mostViolated_scan h l 0 _) as [x v [i|]]; simpl in *.
    + left. destruct (Hs i eq_refl) as (c & -> & Hi & -> & Hmax & Hfirst).
      exists i, c. split; [right|done]. by repeat split.
    + right. destruct (Hn eq_refl) as [-> ->]. split; [|done].
      apply Forall_lookup. intros j c Hj. split.
      * exact (Forall_lookup_1 _ _ _ _ Hno Hj).
      * by eapply Hm, list_elem_of_lookup_2.
  - left. exists i, c. split; [by left|].
    destruct Hfe as (Hi & He & Hfirst).
    apply (scan_first_equality h l 0 _ i c Hi He Hfirst).
Qed.

Lemma selected_lookup h l i c :
  first_equality h l i c \/ first_least_slack h l i c -> l !! i = Some c.
Proof. by intros [[? _]|[? _]]. Qed.

Lemma removable_eq h c :
  dlt (slack h c) ZERO_UPPERBOUND && negb (active h c) || equality h c = removable h c.
Proof. apply orb_comm. Qed.

(** [mostViolated] always returns, and what the loop condition of
    [satisfy] accepts was taken out of the list. *)
Lemma mostViolated_returns h l :
  exists v l', mostViolated h l = Ok (v, l') /\
    forall c, v = Some c -> removable h c = true -> l ≡ₚ c :: l'.
Proof.
  unfold mostViolated.
  destruct (scan_result h l) as [(i & c & Hsel & ->)|[_ ->]]; simpl.
  - apply selected_lookup in Hsel.
    destruct (swap_remove_spec l i c Hsel) as (l' & Hsw & _ & Hp).
    rewrite removable_eq, Hsw. destruct (removable h c) eqn:Hr; simpl.
    + exists (Some c), l'. split; [done|]. by intros ? [= <-].
    + exists (Some c), l. split; [done|]. intros ? [= <-]. congruence.
  - exists None, l. by split.
Qed.

(** C3, as amended. If [l] holds an equality constraint, [mostViolated]
    returns the first one. Otherwise it returns the first constraint of least
    slack when that slack is below [DBL_MAX], and null when no constraint
    has a slack below [DBL_MAX]. The constraint returned is taken out of [l]
    by swap-remove exactly when it is an equality, or inactive with a slack
    below [ZERO_UPPERBOUND]; [l] is otherwise left as it was. *)
Theorem mostViolated_spec h l :
  exists v l', mostViolated h l = Ok (v, l') /\
    match v with
    | Some c =>
        exists i, (first_equality h l i c \/ first_least_slack h l i c) /\
          if removable h c
          then swap_remove i l = Ok l' /\ l ≡ₚ c :: l'
          else l' = l
    | None => none_eligible h l /\ l' = l
    end.
Proof.
  unfold mostViolated.
  destruct (scan_result h l) as [(i & c & Hsel & ->)|[Hnone ->]]; simpl.
  - pose proof (selected_lookup h l i c Hsel) as Hi.
    destruct (swap_remove_spec l i c Hi) as (l' & Hsw & _ & Hp).
    rewrite removable_eq, Hsw. destruct (removable h c) eqn:Hr; simpl.
    + exists (Some c), l'. split; [done|]. exists i. by rewrite Hr.
    + exists (Some c), l. split; [done|]. exists i. by rewrite Hr.
  - by exists None, l.
Qed.

(** C9. On an empty list [mostViolated] returns null and leaves the list
    empty; and on no list does it dereference a null [v] or index [l]
    out of range. *)
Theorem mostViolated_empty h :
  mostViolated h [] = Ok (None, []) /\
  forall l, mostViolated h l <> Undefined.
Proof.
  split; [done|]. intros l.
  destruct (mostViolated_returns h l) as (v & l' & -> & _). done.
Qed.

End MostViolatedSpec.

(** ** [copyResult] *)

Section CopyResult.

Lemma position_write_finalPosition h v x u :
  position (write_finalPosition v x h) u = position h u.
Proof.
  unfold position, write_finalPosition. simpl.
  destruct (decide (v = u)) as [->|Hne].
  - by rewrite fn_lookup_insert.
  - by rewrite fn_lookup_insert_ne.
Qed.

(** The loop of [copyResult] over a list of variables. *)
Lemma copyResult_fold (l : list vptr) : forall h,
  let h' := foldl (fun h v => write_finalPosition v (position h v) h) h l in
  constraints h' = constraints h /\ blocks h' = blocks h /\ bs h' = bs h /\
  (forall u, position h' u = position h u) /\
  (forall v, v ∈ l ->
             variables h' v = Var.set_finalPosition (position h v) (variables h v)) /\
  (forall v, v ∉ l -> variables h' v = variables h v).
Proof.
  induction l as [|w l IH]; intros h; simpl.
  - repeat split; try done. intros v Hv. by apply elem_of_nil in Hv.
  - destruct (IH (write_finalPosition w (position h w) h))
      as (Hc & Hb & Hs & Hp & Hin & Hout).
    repeat split; try done.
    + intros u. by rewrite Hp, position_write_finalPosition.
    + intros v Hv. destruct (decide (v ∈ l)) as [Hl|Hl].
      * rewrite (Hin v Hl), position_write_finalPosition.
        unfold write_finalPosition. simpl.
        destruct (decide (w = v)) as [->|Hne].
        -- by rewrite fn_lookup_insert.
        -- by rewrite fn_lookup_insert_ne.
      * rewrite (Hout v Hl). apply elem_of_cons in Hv as [->|Hv]; [|done].
        unfold write_finalPosition. simpl. by rewrite fn_lookup_insert.
    + intros v Hv. apply not_elem_of_cons in Hv as [Hne Hl].
      rewrite (Hout v Hl). unfold write_finalPosition. simpl.
      by rewrite fn_lookup_insert_ne.
Qed.

(** C10. [copyResult] writes [v->position()] into the [finalPosition] of
    every variable of [vs] and changes nothing else: no other field of
    those variables, no other variable, no constraint, no block. When the
    block position, the offset and the scale of a variable of [vs] are
    finite and the scale is not zero, the value written is not a NaN: the
    asserted [finalPosition == finalPosition] holds. *)
Theorem copyResult_spec (s : Solver.t) (h : Heap) :
  let h' := Solver.copyResult s h in
  (forall v, v ∈ Solver.vs s ->
     variables h' v = Var.set_finalPosition (position h v) (variables h v)) /\
  (forall v, v ∉ Solver.vs s -> variables h' v = variables h v) /\
  constraints h' = constraints h /\ blocks h' = blocks h /\ bs h' = bs h /\
  (forall v, v ∈ Solver.vs s ->
     is_finite (Block.posn (blocks h (Var.block (variables h v)))) = true ->
     is_finite (Var.offset (variables h v)) = true ->
     is_finite (Var.scale (variables h v)) = true ->
     PrimFloat.eqb (Var.scale (variables h v)) 0 = false ->
     Solver.copyResult_assertion h' v = true).
Proof.
  destruct (copyResult_fold (Solver.vs s) h) as (Hc & Hb & Hs & Hp & Hin & Hout).
  simpl. unfold Solver.copyResult. repeat split; try done.
  intros v Hv Hfp Hfo Hfs Hnz. unfold Solver.copyResult_assertion.
  rewrite (Hin v Hv). simpl. by apply add_div_not_nan.
Qed.

End CopyResult.

(** The hypotheses of C10 hold of the two variables of [Ex.merged], whose
    final positions become -0.5 and 0.5. *)
Lemma copyResult_spec_witness :
  let s := Solver.mk 1 [0] 2 [0; 1] in
  let h' := Solver.copyResult s Ex.merged in
  Var.finalPosition (variables h' 0) = (-0.5)%float /\
  Var.finalPosition (variables h' 1) = 0.5%float /\
  Solver.copyResult_assertion h' 1 = true.
Proof.
  intros s h'.
  destruct (copyResult_spec s Ex.merged)
    as (Hin & _ & _ & _ & _ & Hnan).
  fold h' in Hin, Hnan.
  split; [|split].
  - rewrite (Hin 0) by (apply list_elem_of_In; simpl; tauto). reflexivity.
  - rewrite (Hin 1) by (apply list_elem_of_In; simpl; tauto). reflexivity.
  - apply Hnan; [apply list_elem_of_In; simpl; tauto|reflexivity..].
Defined.

(** ** The merge loop of [IncSolver::satisfy] *)

Lemma SF_lt_not_ge x y : SFltb x y = true -> SFleb y x = false.
Proof.
  unfold SFleb, SFltb.
  destruct x as [sx|sx| |sx mx ex], y as [sy|sy| |sy my ey];
    rewrite ?SFcompare_finite; cbn -[cmp_key]; try discriminate; try reflexivity;
    destruct sx, sy; cbn -[cmp_key]; try discriminate; try reflexivity;
    key_cases; cbn; intros; try discriminate; try reflexivity; exfalso; lia.
Qed.

Lemma dlt_not_dge x y : dlt x y = true -> dge x y = false.
Proof. unfold dlt, dge. rewrite ltb_spec, leb_spec. apply SF_lt_not_ge. Qed.

Section MergeLoop.
Context {ops : BlockOps}.
Import IncSolver.

Implicit Types (s : IncSolver.t) (h : Heap) (c : cptr).

(** The loop condition, read from the source with [&&] binding tighter
    than [||]. *)
Lemma satisfy_cond_true h (v : cptr) :
  satisfy_cond h v = true <->
  equality h v = true \/ (dlt (slack h v) ZERO_UPPERBOUND = true /\ active h v = false).
Proof.
  unfold satisfy_cond.
  destruct (equality h v), (dlt _ _), (active h v); simpl; intuition congruence.
Qed.

Lemma satisfy_cond_false h (v : cptr) :
  satisfy_cond h v = false <->
  equality h v = false /\ (dlt (slack h v) ZERO_UPPERBOUND = false \/ active h v = true).
Proof.
  unfold satisfy_cond.
  destruct (equality h v), (dlt _ _), (active h v); simpl; intuition congruence.
Qed.

(** C4. A turn of the merge loop calls [mostViolated] on [inactive]. The
    loop stops there exactly when the result is null, or is a non-equality
    constraint whose slack is not below [ZERO_UPPERBOUND] or which is
    active; the body runs exactly when the result [c] is an equality, or
    has a slack below [ZERO_UPPERBOUND] and is not active. *)
Theorem satisfy_turn_cond s h :
  exists v l, mostViolated h (inactive s) = Ok (v, l) /\
    let s' := set_inactive l s in
    (satisfy_turn s h = Ok (Break s' h) <->
       v = None \/
       exists c, v = Some c /\ equality h c = false /\
                 (dlt (slack h c) ZERO_UPPERBOUND = false \/ active h c = true)) /\
    ((exists c, v = Some c /\
                satisfy_turn s h =
                Ok (Continue (satisfy_body s' h c).1 (satisfy_body s' h c).2)) <->
       exists c, v = Some c /\
                 (equality h c = true \/
                  (dlt (slack h c) ZERO_UPPERBOUND = true /\ active h c = false))).
Proof.
  destruct (mostViolated_returns h (inactive s)) as (v & l & Hmv & _).
  exists v, l. split; [done|]. simpl. unfold satisfy_turn. rewrite Hmv. simpl.
  unfold mret, outcome_ret.
  destruct v as [c|].
  - destruct (satisfy_cond h c) eqn:Hc.
    + split.
      * split; [by destruct (satisfy_body _ h c)|].
        intros [?|(c' & [= <-] & Hstop)]; [done|].
        apply satisfy_cond_false in Hstop. congruence.
      * split; [|intros _; exists c; by destruct (satisfy_body _ h c)].
        intros _. exists c. split; [done|]. by apply satisfy_cond_true.
    + split.
      * split; [|done]. intros _. right. exists c. split; [done|].
        by apply satisfy_cond_false.
      * split.
        -- intros (c' & [= <-] & Hrun). destruct (satisfy_body _ h c). done.
        -- intros (c' & [= <-] & Hrun). apply satisfy_cond_true in Hrun. congruence.
  - split.
    + split; [by left|done].
    + split; intros (c & ? & _); done.
Qed.

End MergeLoop.

Section MergeLoopBody.
Context {ops : BlockOps}.
Import IncSolver.

Implicit Types (s : IncSolver.t) (h : Heap).

Lemma removable_satisfy_cond h (v : cptr) : removable h v = satisfy_cond h v.
Proof. reflexivity. Qed.

(** A constraint on which the body runs was taken out of [inactive]. *)
Lemma mostViolated_removes h (l l' : list cptr) (v : cptr) :
  mostViolated h l = Ok (Some v, l') -> satisfy_cond h v = true -> l ≡ₚ v :: l'.
Proof.
  intros Hmv Hc. destruct (mostViolated_returns h l) as (v' & l'' & Hmv' & Hrem).
  rewrite Hmv in Hmv'. injection Hmv' as <- <-. by apply Hrem.
Qed.

(** C5. When the most violated constraint [v] has both endpoints in one
    block and that block has an active directed path from [v.right] to
    [v.left], the turn sets [v.unsatisfiable] and goes on to the next turn
    without an error. Nothing else changes: no variable, no block, the
    block set, no other constraint, no [active] flag; [v], if not an
    equality, is inactive as before, and it has left [inactive]. *)
Theorem satisfy_turn_cycle s h (v : cptr) (l : list cptr) :
  mostViolated h (inactive s) = Ok (Some v, l) ->
  satisfy_cond h v = true ->
  left_block h v = right_block h v ->
  isActiveDirectedPathBetween (left_block h v) (Constraint.right (constraints h v))
    (Constraint.left (constraints h v)) h = true ->
  let h' := write_unsatisfiable v true h in
  satisfy_turn s h = Ok (Continue (set_inactive l s) h') /\
  unsatisfiable h' v = true /\
  variables h' = variables h /\ blocks h' = blocks h /\ bs h' = bs h /\
  (forall c, c <> v -> constraints h' c = constraints h c) /\
  (forall c, active h' c = active h c) /\
  (equality h v = false -> active h' v = false) /\
  inactive s ≡ₚ v :: l.
Proof.
  intros Hmv Hc Hsame Hpath h'.
  assert (Hactive : forall c, active h' c = active h c).
  { intros c. unfold h', active, write_unsatisfiable. simpl.
    destruct (decide (v = c)) as [->|Hne].
    - by rewrite fn_lookup_insert.
    - by rewrite fn_lookup_insert_ne. }
  split; [|split; [|split; [|split; [|split; [|split; [|split; [|split]]]]]]];
    try done.
  - unfold satisfy_turn. rewrite Hmv. simpl. rewrite Hc.
    unfold satisfy_body. rewrite Hsame, Nat.eqb_refl. simpl.
    rewrite <- Hsame, Hpath. done.
  - unfold h', unsatisfiable, write_unsatisfiable. simpl.
    by rewrite fn_lookup_insert.
  - intros c Hne. unfold h', write_unsatisfiable. simpl.
    by rewrite fn_lookup_insert_ne.
  - intros He. rewrite Hactive. apply satisfy_cond_true in Hc.
    destruct Hc as [Hc|[_ Hc]]; congruence.
  - by eapply mostViolated_removes.
Qed.

(** C6. When [v] has both endpoints in one block [lb] and no cycle was
    found, the body calls [lb->splitBetween(v->left, v->right, lb, rb)].
    If that frees a constraint, it is appended to [inactive]; then, with a
    slack of [v] that is [>= 0], [v] is appended after it and both halves are
    inserted into the block set, and with a slack [< 0] the halves are
    merged over [v] and the merged block is inserted. If it frees none (or
    throws), [v.unsatisfiable] is set and nothing else is done. *)
Theorem satisfy_body_split s h (v : cptr) :
  left_block h v = right_block h v ->
  isActiveDirectedPathBetween (left_block h v) (Constraint.right (constraints h v))
    (Constraint.left (constraints h v)) h = false ->
  match splitBetween (left_block h v) (Constraint.left (constraints h v))
                     (Constraint.right (constraints h v)) h with
  | (Some (Some c_split, lb, rb), h1) =>
      (dge (slack h1 v) 0%float = true ->
       satisfy_body s h v =
         (set_inactive (inactive s ++ [c_split] ++ [v]) s,
          cleanup (Blocks_insert rb (Blocks_insert lb h1)))) /\
      (dlt (slack h1 v) 0%float = true ->
       satisfy_body s h v =
         (set_inactive (inactive s ++ [c_split]) s,
          cleanup (Blocks_insert (Block_merge lb rb v h1).1 (Block_merge lb rb v h1).2)))
  | (Some (None, _, _), h1) | (None, h1) =>
      satisfy_body s h v = (s, write_unsatisfiable v true h1)
  end.
Proof.
  intros Hsame Hpath. unfold satisfy_body, satisfy_split.
  rewrite <- Hsame, Nat.eqb_refl, Hpath. simpl.
  destruct (splitBetween _ _ _ h) as [[[[[c_split|] lb] rb]|] h1]; try done.
  split.
  - intros Hge. rewrite Hge. unfold push_inactive. simpl.
    by rewrite <- app_assoc.
  - intros Hlt. rewrite (dlt_not_dge _ _ Hlt).
    by destruct (Block_merge lb rb v h1).
Qed.

End MergeLoopBody.

(** The hypotheses of C5 hold in [Ex.merged] of constraint 1,
    [x0 - x1 >= 1]: its slack is -2, both endpoints are in block 0, and
    the active constraint 0 is a path from its right to its left. *)
Lemma satisfy_turn_cycle_witness :
  let s := IncSolver.mk (Solver.mk 2 [0; 1] 2 [0; 1]) 0 [1] in
  IncSolver.satisfy_turn (ops := Standin.ops true None) s Ex.merged =
  Ok (IncSolver.Continue (IncSolver.set_inactive [] s)
        (write_unsatisfiable 1 true Ex.merged)).
Proof.
  intros s.
  apply (satisfy_turn_cycle (ops := Standin.ops true None) s Ex.merged 1 []);
    reflexivity.
Defined.

(** The hypotheses of C6 hold in [Ex.merged] of constraint 2,
    [x1 - x0 >= 3], when [splitBetween] frees constraint 0 and leaves the
    halves at 0 and 1: the slack of constraint 2 is -2, so the halves are
    merged back. *)
Lemma satisfy_body_split_witness :
  let s := IncSolver.mk (Solver.mk 3 [0; 1; 2] 2 [0; 1]) 0 [] in
  IncSolver.inactive
    (IncSolver.satisfy_body (ops := Standin.ops false (Some (Some 0, 0, 1)))
                            s Ex.merged 2).1 = [0].
Proof.
  intros s.
  pose proof (satisfy_body_split (ops := Standin.ops false (Some (Some 0, 0, 1)))
                s Ex.merged 2 eq_refl eq_refl) as [_ H].
  rewrite (H eq_refl). reflexivity.
Defined.

(** ** [Solver::refine] *)

Section Refine.
Context {ops : BlockOps}.
Import Solver.

Lemma refine_scan_solved l : forall h,
  (refine_scan l h).1 = true <-> no_split_point l h.
Proof.
  induction l as [|b l IH]; intros h; simpl; [done|].
  destruct (findMinLM b h) as [[c|] h1]; simpl.
  - destruct (dlt (lm h1 c) LAGRANGIAN_TOLERANCE); simpl.
    + split; [done|]. by intros [? _].
    + rewrite IH. tauto.
  - rewrite IH. tauto.
Qed.

(** A pass leaves [solved] true exactly when it found nothing to split. *)
Lemma refine_pass_solved h :
  (refine_pass h).1 = true <-> no_split_point (bs (refine_setup h)) (refine_setup h).
Proof. apply refine_scan_solved. Qed.

Lemma refine_while_solved maxtries h :
  refine_while true maxtries h = (true, maxtries, h).
Proof. by destruct maxtries. Qed.

Lemma refine_while_passes maxtries : forall h,
  exists k solved,
    k <= maxtries /\
    refine_while false maxtries h = (solved, maxtries - k, after_passes k h) /\
    (forall j, S j < k -> (refine_pass (after_passes j h)).1 = false) /\
    ((solved = true /\ 1 <= k /\ (refine_pass (after_passes (k - 1) h)).1 = true) \/
     (solved = false /\ k = maxtries /\
      forall j, j < k -> (refine_pass (after_passes j h)).1 = false)).
Proof.
  induction maxtries as [|n IH]; intros h.
  - exists 0, false. simpl. repeat split; [lia| |right; repeat split];
      intros j Hj; lia.
  - simpl. destruct (refine_pass h) as [[] h1] eqn:Hp.
    + exists 1, true. rewrite refine_while_solved. simpl. rewrite Hp. simpl.
      replace (n - 0) with n by lia.
      repeat split; [lia| |left; repeat split; lia]. intros j Hj. lia.
    + destruct (IH h1) as (k & solved & Hk & Hw & Hsplit & Hend).
      exists (S k), solved. simpl. rewrite Hp. simpl.
      split; [lia|]. split; [done|]. split.
      * intros [|j] Hj; simpl; rewrite Hp; [done|]. apply Hsplit. lia.
      * destruct Hend as [(-> & Hk1 & Hlast)|(-> & -> & Hall)].
        -- left. repeat split; [lia|]. destruct k as [|k]; [lia|].
           simpl in *. rewrite Hp. simpl. by rewrite Nat.sub_0_r in Hlast.
        -- right. repeat split. intros [|j] Hj; simpl; rewrite Hp; [done|].
           apply Hall. lia.
Qed.

(** C7. [refine] runs [k <= 100] outer passes and then its verification
    loop, so it always ends. Every pass but the last did a split; and
    either the last pass went through every block without finding a
    constraint with [lm < LAGRANGIAN_TOLERANCE] (see [refine_pass_solved]),
    or [k = 100] and the hundredth pass still did a split. *)
Theorem refine_at_most_100_passes (s : Solver.t) (h : Heap) :
  exists k,
    k <= 100 /\
    (forall j, S j < k -> (refine_pass (after_passes j h)).1 = false) /\
    ((1 <= k /\ (refine_pass (after_passes (k - 1) h)).1 = true) \/
     (k = 100 /\ (refine_pass (after_passes 99 h)).1 = false)) /\
    refine s h =
      (_ ← verify UnsatisfiedConstraint (after_passes k h) (cs s) 0 (m s) false;
       mret (after_passes k h)).
Proof.
  destruct (refine_while_passes 100 h) as (k & solved & Hk & Hw & Hsplit & Hend).
  exists k. split; [done|]. split; [done|]. split.
  - destruct Hend as [(_ & H1 & H2)|(_ & -> & H)]; [by left|right].
    split; [done|]. apply H. lia.
  - unfold refine. by rewrite Hw.
Qed.

End Refine.

(** ** [Solver::solve] *)

Section Solve.
Context {ops : BlockOps}.

(** Non-empty classes are as many as their elements exactly when each is
    a singleton. *)
Lemma classes_count {A} (ls : list (list A)) :
  Forall (fun l => l <> []) ls ->
  length ls <= length (concat ls) /\
  (length ls <> length (concat ls) <-> Exists (fun l => 1 < length l) ls).
Proof.
  induction 1 as [|l ls Hl _ [IHle IH]]; simpl.
  - split; [lia|]. split; [lia|]. inversion 1.
  - rewrite length_app. destruct l as [|x l]; [done|]. simpl in *.
    split; [lia|]. rewrite Exists_cons. simpl.
    destruct l as [|y l]; simpl in *.
    + split.
      * intros ?. right. apply IH. lia.
      * intros [?|?%IH]; lia.
    + split; [intros _; left; lia|lia].
Qed.

Lemma solve_flag (s : Solver.t) h (b : bool) h' :
  Solver.solve s h = Ok (b, h') -> b = negb (length (bs h') =? Solver.n s).
Proof.
  unfold Solver.solve. destruct (Solver.satisfy s h) as [[a h1]| |]; [|done..].
  simpl. destruct (Solver.refine s h1) as [h2| |]; [|done..].
  simpl. by intros [= <- <-].
Qed.

(** Over a partitioned block set, [bs->size() != n] says that some block
    holds more than one variable. *)
Lemma size_differs_iff (h : Heap) (vs : list vptr) (b : bool) :
  partitioned h vs ->
  b = negb (length (bs h) =? length vs) ->
  (b = true <->
   exists bp, bp ∈ bs h /\ Block.deleted (blocks h bp) = false /\
              1 < length (Block.vars (blocks h bp))) /\
  (b = true <-> length (bs h) <> length vs).
Proof.
  intros [Hlive Hperm] ->.
  assert (Hb : negb (length (bs h) =? length vs) = true <-> length (bs h) <> length vs).
  { rewrite negb_true_iff. apply Nat.eqb_neq. }
  split; [|done]. rewrite Hb, <- (Permutation_length Hperm).
  destruct (classes_count ((fun b => Block.vars (blocks h b)) <$> bs h)) as [_ Hcount].
  { apply Forall_fmap, Forall_lookup. intros i bp Hi. simpl.
    by destruct (Forall_lookup_1 _ _ _ _ Hlive Hi). }
  rewrite length_fmap in Hcount. rewrite Hcount, Exists_fmap, Exists_exists.
  split.
  - intros (bp & Hin%list_elem_of_In & Hbig). exists bp.
    split; [done|]. split; [|done].
    apply list_elem_of_lookup in Hin as [i Hi].
    by destruct (Forall_lookup_1 _ _ _ _ Hlive Hi).
  - intros (bp & Hin%list_elem_of_In & _ & Hbig). by exists bp.
Qed.

(** C2. When [solve] returns, and the blocks of the block set are then
    live, non-empty and hold every variable exactly once, the boolean
    returned is true exactly when some block holds more than one variable,
    which is when the number of blocks differs from the number of
    variables. *)
Theorem solve_true_iff (vs : list vptr) (cs : list cptr) (h0 : Heap) (b : bool) (h' : Heap) :
  Solver.solve (Solver.new vs cs h0).1 (Solver.new vs cs h0).2 = Ok (b, h') ->
  partitioned h' vs ->
  (b = true <->
   exists bp, bp ∈ bs h' /\ Block.deleted (blocks h' bp) = false /\
              1 < length (Block.vars (blocks h' bp))) /\
  (b = true <-> length (bs h') <> length vs).
Proof.
  intros Hsolve Hpart. apply solve_flag in Hsolve. simpl in Hsolve.
  by apply size_differs_iff.
Qed.

(** *** The same for [IncSolver::solve] *)








End Solve.

(** ** The verification loops *)

Section Verify.
Context {ops : BlockOps}.
Import Solver.

(** The loop over [cs[0..m)] when [m] is the size of [cs], as the
    constructor sets it: it throws for the first constraint whose slack is
    below [ZERO_UPPERBOUND], and otherwise returns whether a constraint is
    active. *)
Lemma verify_from raise h (l : list cptr) : forall pre a,
  verify raise h (pre ++ l) (length pre) (length l) a =
  match List.find (fun c => dlt (slack h c) ZERO_UPPERBOUND) l with
  | Some c => Throw (raise c)
  | None => Ok (a || existsb (active h) l)
  end.
Proof.
  induction l as [|c l IH]; intros pre a; simpl.
  - by rewrite orb_false_r.
  - rewrite lookup_app_r, Nat.sub_diag by lia. simpl.
    destruct (dlt (slack h c) ZERO_UPPERBOUND); [done|].
    replace (pre ++ c :: l) with ((pre ++ [c]) ++ l) by by rewrite <- app_assoc.
    replace (S (length pre)) with (length (pre ++ [c]))
      by (rewrite length_app; simpl; lia).
    rewrite IH. destruct (List.find _ l); [done|].
    by destruct (active h c), a.
Qed.

Lemma verify_spec raise h (cs : list cptr) :
  verify raise h cs 0 (length cs) false =
  match List.find (fun c => dlt (slack h c) ZERO_UPPERBOUND) cs with
  | Some c => Throw (raise c)
  | None => Ok (existsb (active h) cs)
  end.
Proof. apply (verify_from raise h cs [] false). Qed.

Lemma find_none_Forall (f : cptr -> bool) (l : list cptr) :
  List.find f l = None -> Forall (fun c => f c = false) l.
Proof.
  induction l as [|c l IH]; simpl; [by constructor|].
  destruct (f c) eqn:E; [done|]. constructor; auto.
Qed.

Lemma find_some_first (f : cptr -> bool) (l : list cptr) c :
  List.find f l = Some c ->
  exists i, l !! i = Some c /\ f c = true /\
            forall j c', j < i -> l !! j = Some c' -> f c' = false.
Proof.
  induction l as [|c0 l IH]; simpl; [done|].
  destruct (f c0) eqn:E.
  - intros [= <-]. exists 0. repeat split; [done|]. intros j c' Hj. lia.
  - intros (i & Hi & Hc & Hfirst)%IH. exists (S i). repeat split; [done..|].
    intros [|j] c' Hj Hc'; simpl in Hc'; [by injection Hc' as <-|].
    apply (Hfirst j); [lia|done].
Qed.

(** [Solver::satisfy] and [Solver::refine], for a solver as its constructor
    builds it: once the blocks are merged (or split, in at most 100
    passes), if some constraint of [cs] has a slack below
    [ZERO_UPPERBOUND] then [UnsatisfiedConstraint] is thrown with the first
    of them; otherwise the call returns. *)
Theorem Solver_verification (vs : list vptr) (cs : list cptr) (h0 h : Heap) :
  let s := (Solver.new vs cs h0).1 in
  (let hs := cleanup (mergeLeft_all h (totalOrder h)) in
   match List.find (fun c => dlt (slack hs c) ZERO_UPPERBOUND) cs with
   | Some c => satisfy s h = Throw (UnsatisfiedConstraint c)
   | None => satisfy s h = Ok (existsb (active hs) cs, copyResult s hs)
   end) /\
  (exists k, k <= 100 /\
   let hr := after_passes k h in
   match List.find (fun c => dlt (slack hr c) ZERO_UPPERBOUND) cs with
   | Some c => refine s h = Throw (UnsatisfiedConstraint c)
   | None => refine s h = Ok hr
   end).
Proof.
  simpl. split.
  - unfold satisfy. simpl. rewrite verify_spec. by destruct (List.find _ cs).
  - destruct (refine_while_passes 100 h) as (k & solved & Hk & Hw & _).
    exists k. split; [done|]. unfold refine. rewrite Hw. simpl.
    rewrite verify_spec. by destruct (List.find _ cs).
Qed.

(** The verification that ends [IncSolver::satisfy] never throws
    [UnsatisfiedConstraint]. For a solver as its constructor builds it: if
    some constraint of [cs] has a slack below [ZERO_UPPERBOUND] once the
    block set is cleaned up, the C string is thrown for the first of them;
    otherwise the results are copied and the call returns. *)
Theorem IncSolver_verification (s : IncSolver.t) (vs : list vptr) (cs : list cptr)
    (h0 h : Heap) :
  (forall c, IncSolver.satisfy_finish s h <> Throw (UnsatisfiedConstraint c)) /\
  (let s' := (IncSolver.new vs cs h0).1 in
   let hc := cleanup h in
   match List.find (fun c => dlt (slack hc c) ZERO_UPPERBOUND) cs with
   | Some c => IncSolver.satisfy_finish s' h = Throw (CStringMessage c)
   | None =>
       IncSolver.satisfy_finish s' h =
       Ok (existsb (active hc) cs, s', copyResult (IncSolver.base s') hc)
   end).
Proof.
  unfold IncSolver.satisfy_finish. split.
  - intros c. generalize 0 at 1. generalize false.
    generalize (Solver.m (IncSolver.base s)). intros k.
    induction k as [|k IH]; intros a i; simpl; [done|].
    destruct (Solver.cs (IncSolver.base s) !! i) as [c0|]; simpl; [|done].
    destruct (dlt _ _); [done|]. apply IH.
  - simpl. rewrite verify_spec. by destruct (List.find _ cs).
Qed.

End Verify.

(** ** The solvers run on concrete heaps *)

(** C3 as stated fails on a non-empty list: the only constraint,
    [x1 - x0 >= -DBL_MAX] with both variables at 0, has slack [DBL_MAX],
    which is not below the initial [minSlack]; [mostViolated] returns null
    and leaves the list as it was. *)
Lemma mostViolated_null_on_nonempty :
  slack (BlockOps := Standin.ops false None) (Ex.apart (- DBL_MAX)%float) 0 = DBL_MAX /\
  IncSolver.mostViolated (ops := Standin.ops false None) (Ex.apart (- DBL_MAX)%float) [0]
  = Ok (None, [0]).
Proof. split; reflexivity. Qed.

(** The constraint of least slack is returned, and removed when violated:
    of [x1 - x0 >= 1] (slack 0, active), [x0 - x1 >= 1] (slack -2) and
    [x1 - x0 >= 3] (slack -2), the first of the two at -2. *)
Example mostViolated_least_slack :
  IncSolver.mostViolated (ops := Standin.ops false None) Ex.merged [0; 1; 2]
  = Ok (Some 1, [0; 2]).
Proof. reflexivity. Qed.

(** A satisfied constraint is returned and stays in the list. *)
Example mostViolated_satisfied :
  IncSolver.mostViolated (ops := Standin.ops false None) (Ex.apart (-1)%float) [3; 4]
  = Ok (Some 3, [3; 4]).
Proof. reflexivity. Qed.

(** C1 fails on [IncSolver::satisfy]. In [Ex.widened] the only constraint
    is active, so it is not in [inactive]: nothing is split, the merge loop
    ends at once, and the verification loop finds the slack of -2 and
    throws the C string, not [UnsatisfiedConstraint]. *)
Theorem IncSolver_satisfy_throws_c_string :
  IncSolver.satisfy (ops := Standin.ops false None) 1
    (IncSolver.mk (Solver.mk 1 [0] 2 [0; 1]) 0 []) Ex.widened
  = Some (Throw (CStringMessage 0)).
Proof. reflexivity. Qed.

(** On the same state the verification loops of [Solver::satisfy] and
    [Solver::refine] throw [UnsatisfiedConstraint]. *)
Example Solver_throws_UnsatisfiedConstraint :
  Solver.satisfy (ops := Standin.ops false None) (Solver.mk 1 [0] 2 [0; 1]) Ex.widened
  = Throw (UnsatisfiedConstraint 0) /\
  Solver.refine (ops := Standin.ops false None) (Solver.mk 1 [0] 2 [0; 1]) Ex.widened
  = Throw (UnsatisfiedConstraint 0).
Proof. split; reflexivity. Qed.

(** [IncSolver::satisfy] throws the C string on a cycle too: constraint 1
    of [Ex.merged] is flagged unsatisfiable by the merge loop, and its
    slack of -2 then fails the verification. *)
Example IncSolver_satisfy_cycle :
  IncSolver.satisfy (ops := Standin.ops true None) 2
    (IncSolver.mk (Solver.mk 2 [0; 1] 2 [0; 1]) 0 [1]) Ex.merged
  = Some (Throw (CStringMessage 1)).
Proof. reflexivity. Qed.

(** The hypotheses of C2 hold of two variables with no constraint: [solve]
    returns false and leaves the partitioned heap [solved_apart], in which
    no block holds two variables. *)
Lemma solve_true_iff_witness :
  partitioned solved_apart [0; 1] /\
  ~ exists bp, bp ∈ bs solved_apart /\ Block.deleted (blocks solved_apart bp) = false /\
               1 < length (Block.vars (blocks solved_apart bp)).
Proof.
  assert (Hp : partitioned solved_apart [0; 1]).
  { split; [by repeat constructor|reflexivity]. }
  split; [exact Hp|].
  destruct (solve_true_iff (ops := Standin.ops false None) [0; 1] [] (Ex.apart 0%float)
              false solved_apart eq_refl Hp) as [H _].
  intros Hex. apply H in Hex. discriminate Hex.
Defined.

(** Scenario S1 of the spec: one variable wanted at 5, no constraint. *)
Example solve_single_variable :
  let h := mkHeap (fun v => Ex.var 5%float v) (fun _ => Ex.con 0 0 0%float false false)
                  (fun b => Ex.blk [b] 5%float) [0] in
  match Solver.solve (ops := Standin.ops false None)
          (Solver.new (ops := Standin.ops false None) [0] [] h).1
          (Solver.new (ops := Standin.ops false None) [0] [] h).2 with
  | Ok (b, h') => b = false /\ Var.finalPosition (variables h' 0) = 5%float
  | _ => False
  end.
Proof. split; reflexivity. Qed.


(** ** The constructors *)

Section Constructors.
Context {ops : BlockOps}.

Implicit Types (h : Heap) (v : vptr) (c : cptr).

Lemma clear_in_out_fold (l : list vptr) : forall h,
  let h' := foldl Solver.clear_in_out h l in
  constraints h' = constraints h /\ blocks h' = blocks h /\ bs h' = bs h /\
  forall v, variables h' v =
            if decide (v ∈ l) then Var.set_out [] (Var.set_in [] (variables h v))
            else variables h v.
Proof.
  induction l as [|w l IH]; intros h; simpl.
  - do 3 (split; [done|]). intros v.
    by destruct (decide (v ∈ [])) as [H%not_elem_of_nil|].
  - destruct (IH (Solver.clear_in_out h w)) as (Hc & Hb & Hs & Hv).
    do 3 (split; [done|]). intros v. rewrite Hv.
    unfold Solver.clear_in_out. simpl.
    destruct (decide (w = v)) as [->|Hne].
    + rewrite fn_lookup_insert.
      destruct (decide (v ∈ v :: l)) as [_|Hn]; [|by destruct Hn; left].
      by destruct (decide (v ∈ l)).
    + rewrite fn_lookup_insert_ne by done.
      destruct (decide (v ∈ l)) as [Hl|Hl], (decide (v ∈ w :: l)) as [Hl'|Hl'];
        try done.
      * destruct Hl'. by right.
      * apply elem_of_cons in Hl' as [?|?]; congruence.
Qed.

Lemma link_var h c v :
  variables (Solver.link h c) v =
  Var.set_in (Var.in_ (variables h v) ++
              filter (fun c => Constraint.right (constraints h c) = v) [c])
    (Var.set_out (Var.out (variables h v) ++
                  filter (fun c => Constraint.left (constraints h c) = v) [c])
       (variables h v)).
Proof.
  unfold Solver.link. simpl.
  rewrite !filter_cons, !filter_nil.
  destruct (decide (Constraint.right (constraints h c) = v)) as [Er|Er],
           (decide (Constraint.left (constraints h c) = v)) as [El|El];
    rewrite ?Er, ?El, ?fn_lookup_insert, ?fn_lookup_insert_ne by congruence;
    try rewrite Er; try rewrite El;
    rewrite ?fn_lookup_insert, ?fn_lookup_insert_ne by congruence;
    rewrite ?app_nil_r; by destruct (variables h v).
Qed.

Lemma link_fold (cs : list cptr) : forall h,
  let h' := foldl Solver.link h cs in
  constraints h' = constraints h /\ blocks h' = blocks h /\ bs h' = bs h /\
  forall v, variables h' v =
            linked_var h cs (Var.out (variables h v)) (Var.in_ (variables h v))
                       (variables h v) v.
Proof.
  induction cs as [|c cs IH]; intros h; simpl.
  - do 3 (split; [done|]). intros v. unfold linked_var. rewrite !filter_nil, !app_nil_r.
    by destruct (variables h v).
  - destruct (IH (Solver.link h c)) as (Hc & Hb & Hs & Hv).
    assert (Hc' : constraints (Solver.link h c) = constraints h) by done.
    do 3 (split; [done|]). intros v. rewrite Hv. unfold linked_var.
    rewrite Hc', link_var. rewrite !filter_cons, !filter_nil.
    destruct (decide (Constraint.right (constraints h c) = v)),
             (decide (Constraint.left (constraints h c) = v));
      simpl; rewrite ?app_nil_r, <- ?app_assoc; by destruct (variables h v).
Qed.

Lemma linked_constraints (vs : list vptr) (cs : list cptr) h :
  constraints (foldl Solver.link (foldl Solver.clear_in_out h vs) cs) = constraints h.
Proof.
  destruct (clear_in_out_fold vs h) as (Hc1 & _).
  destruct (link_fold cs (foldl Solver.clear_in_out h vs)) as (Hc2 & _).
  simpl in *. congruence.
Qed.

(** The heap the constructor hands to [Blocks]: the lists of a variable of
    [vs] hold the constraints of [cs] that enter and leave it. *)
Lemma linked_lists (vs : list vptr) (cs : list cptr) h v :
  let h2 := foldl Solver.link (foldl Solver.clear_in_out h vs) cs in
  v ∈ vs ->
  Var.in_ (variables h2 v) = filter (fun c => Constraint.right (constraints h c) = v) cs /\
  Var.out (variables h2 v) = filter (fun c => Constraint.left (constraints h c) = v) cs.
Proof.
  simpl. intros Hv. destruct (clear_in_out_fold vs h) as (Hc1 & _ & _ & Hv1).
  destruct (link_fold cs (foldl Solver.clear_in_out h vs)) as (Hc2 & _ & _ & Hv2).
  simpl in *. rewrite Hv2. unfold linked_var.
  rewrite Hc1, Hv1, decide_True by done. by destruct (variables h v).
Qed.

(** The constructor of [Solver] sets [m] and [n] to the sizes of [cs] and
    [vs] and hands [Blocks] a heap in which only [in] and [out] lists have
    changed: those of a variable of [vs] hold exactly the constraints of
    [cs] that enter and leave it, in the order of [cs]; those of a variable
    outside [vs] are not cleared, the constraints of [cs] are appended to
    what they held. *)
Theorem Solver_new_in_out (vs : list vptr) (cs : list cptr) h :
  let h2 := foldl Solver.link (foldl Solver.clear_in_out h vs) cs in
  Solver.new vs cs h = (Solver.mk (length cs) cs (length vs) vs, Blocks_new vs h2) /\
  constraints h2 = constraints h /\ blocks h2 = blocks h /\ bs h2 = bs h /\
  (forall v, v ∈ vs -> variables h2 v = linked_var h cs [] [] (variables h v) v) /\
  (forall v, v ∉ vs ->
     variables h2 v =
     linked_var h cs (Var.out (variables h v)) (Var.in_ (variables h v)) (variables h v) v).
Proof.
  simpl. destruct (clear_in_out_fold vs h) as (Hc1 & Hb1 & Hs1 & Hv1).
  destruct (link_fold cs (foldl Solver.clear_in_out h vs)) as (Hc2 & Hb2 & Hs2 & Hv2).
  simpl in *. split; [done|]. do 3 (split; [congruence|]).
  split; intros v Hv; rewrite Hv2; unfold linked_var; rewrite Hc1, Hv1.
  - rewrite decide_True by done. by destruct (variables h v).
  - by rewrite decide_False by done.
Qed.

Lemma write_active_fold (cs : list cptr) : forall h,
  let h' := foldl (fun h c => write_active c false h) h cs in
  variables h' = variables h /\ blocks h' = blocks h /\ bs h' = bs h /\
  forall c, constraints h' c =
            if decide (c ∈ cs) then Constraint.set_active false (constraints h c)
            else constraints h c.
Proof.
  induction cs as [|c0 cs IH]; intros h; simpl.
  - do 3 (split; [done|]). intros c.
    by destruct (decide (c ∈ [])) as [H%not_elem_of_nil|].
  - destruct (IH (write_active c0 false h)) as (Hv & Hb & Hs & Hc).
    do 3 (split; [done|]). intros c. rewrite Hc.
    unfold write_active. simpl.
    destruct (decide (c0 = c)) as [->|Hne].
    + rewrite fn_lookup_insert.
      destruct (decide (c ∈ c :: cs)) as [_|Hn]; [|by destruct Hn; left].
      by destruct (decide (c ∈ cs)).
    + rewrite fn_lookup_insert_ne by done.
      destruct (decide (c ∈ cs)) as [Hl|Hl], (decide (c ∈ c0 :: cs)) as [Hl'|Hl'];
        try done.
      * destruct Hl'. by right.
      * apply elem_of_cons in Hl' as [?|?]; congruence.
Qed.

(** The constructor of [IncSolver] builds the [Solver], takes [cs] as
    [inactive], and clears the [active] flag of every constraint of [cs]
    and nothing else: [unsatisfiable] and [lm] keep the values they had,
    and a constraint outside [cs] is not touched. *)
Theorem IncSolver_new_spec (vs : list vptr) (cs : list cptr) h :
  let sh := Solver.new vs cs h in
  let r := IncSolver.new vs cs h in
  IncSolver.base r.1 = sh.1 /\ IncSolver.inactive r.1 = cs /\
  variables r.2 = variables sh.2 /\ blocks r.2 = blocks sh.2 /\ bs r.2 = bs sh.2 /\
  (forall c, c ∈ cs -> active r.2 c = false /\
                       constraints r.2 c = Constraint.set_active false (constraints sh.2 c)) /\
  (forall c, c ∉ cs -> constraints r.2 c = constraints sh.2 c).
Proof.
  simpl. unfold IncSolver.new. simpl.
  destruct (write_active_fold cs
              (Blocks_new vs (foldl Solver.link (foldl Solver.clear_in_out h vs) cs)))
    as (Hv & Hb & Hs & Hc). simpl in *.
  do 5 (split; [done|]). split; intros c Hin; unfold active; rewrite Hc.
  - by rewrite decide_True by done.
  - by rewrite decide_False by done.
Qed.

End Constructors.

(** ** [splitBlocks] and the worklist [inactive] *)

Section Worklist.
Context {ops : BlockOps}.
Import IncSolver.

Implicit Types (s : IncSolver.t) (h : Heap).




(** What [mostViolated] does not accept for removal stays in the list. *)
Lemma mostViolated_keeps h (l l' : list cptr) (v : option cptr) :
  mostViolated h l = Ok (v, l') ->
  match v with Some c => removable h c = false | None => True end ->
  l' = l.
Proof.
  unfold mostViolated.
  destruct (scan_result h l) as [(i & c & Hsel & ->)|[_ ->]]; simpl.
  - apply selected_lookup in Hsel.
    destruct (swap_remove_spec l i c Hsel) as (l0 & Hsw & _).
    rewrite removable_eq, Hsw. destruct (removable h c) eqn:Hr; simpl.
    + intros [= <- <-]. congruence.
    + by intros [= <- <-].
  - by intros [= <- <-].
Qed.


End Worklist.

(** ** What holds when the merge loop ends *)

Lemma SF_lt_cotrans a b z :
  SFltb a z = true -> SFltb b b = false -> b <> S754_nan ->
  SFltb a b || SFltb b z = true.
Proof.
  unfold SFltb.
  destruct a as [sa|sa| |sa ma ea], b as [sb|sb| |sb mb eb], z as [sz|sz| |sz mz ez];
    rewrite ?SFcompare_finite; cbn -[cmp_key];
    try discriminate; try reflexivity; try (intros; congruence);
    try (destruct sa, sb, sz; cbn -[cmp_key]; try discriminate; try reflexivity;
         key_cases; cbn; intros; try discriminate; try reflexivity; exfalso; lia).
Qed.

(** [a < z] with [b < DBL_MAX] (so [b] is no NaN) gives [a < b] or
    [b < z]. *)
Lemma dlt_cotrans a b z :
  dlt a z = true -> dlt b DBL_MAX = true -> dlt a b = true \/ dlt b z = true.
Proof.
  unfold dlt. rewrite !ltb_spec. intros Haz Hb.
  assert (Hn : Prim2SF b <> S754_nan).
  { intros E. rewrite E in Hb. discriminate Hb. }
  apply orb_true_iff, SF_lt_cotrans; [done|apply SF_lt_irrefl|done].
Qed.

Section LoopExit.
Context {ops : BlockOps}.
Import IncSolver.

Implicit Types (s : IncSolver.t) (h : Heap).

(** A turn that stops the loop changes nothing. *)
Lemma satisfy_turn_break_same s h s' h' :
  satisfy_turn s h = Ok (Break s' h') -> inactive s' = inactive s /\ h' = h.
Proof.
  unfold satisfy_turn.
  destruct (mostViolated_returns h (inactive s)) as (v & l & Hmv & Hrem).
  rewrite Hmv. simpl. destruct v as [v|].
  - destruct (satisfy_cond h v) eqn:Hc.
    + by destruct (satisfy_body _ h v).
    + simpl. intros [= <- <-]. split; [|done]. simpl.
      by rewrite (mostViolated_keeps h _ _ _ Hmv).
  - simpl. intros [= <- <-]. split; [|done]. simpl.
    by rewrite (mostViolated_keeps h _ _ _ Hmv).
Qed.

(** The merge loop stops only when [inactive] holds no equality constraint
    and either none of its constraints has a slack below
    [ZERO_UPPERBOUND], or the first one of least slack is flagged active
    (and is below [ZERO_UPPERBOUND]). *)
Lemma satisfy_turn_break s h s' h' :
  satisfy_turn s h = Ok (Break s' h') ->
  Forall (fun c => equality h' c = false) (inactive s') /\
  (Forall (fun c => dlt (slack h' c) ZERO_UPPERBOUND = false) (inactive s') \/
   exists i c, first_least_slack h' (inactive s') i c /\
               active h' c = true /\ dlt (slack h' c) ZERO_UPPERBOUND = true).
Proof.
  intros Ht. destruct (satisfy_turn_break_same s h s' h' Ht) as [Hi ->].
  rewrite Hi. clear Hi. revert Ht.
  unfold satisfy_turn, mostViolated.
  destruct (scan_result h (inactive s)) as [(i & c & Hsel & ->)|[Hnone ->]]; simpl.
  - pose proof (selected_lookup h _ i c Hsel) as Hc.
    destruct (swap_remove_spec _ i c Hc) as (l0 & Hsw & _).
    rewrite removable_eq, Hsw.
    change (removable h c) with (satisfy_cond h c).
    destruct (satisfy_cond h c) eqn:Hcond; simpl; rewrite Hcond.
    { by destruct (satisfy_body _ h c). }
    intros _. apply satisfy_cond_false in Hcond as [He Hstop].
    destruct Hsel as [(_ & He' & _)|Hsel]; [congruence|].
    pose proof Hsel as (_ & Hno & Hmax & Hmin & _). split; [done|].
    destruct (dlt (slack h c) ZERO_UPPERBOUND) eqn:Hlt.
    + right. exists i, c. destruct Hstop as [?|?]; [done|]. done.
    + left. apply Forall_lookup. intros j c' Hj.
      destruct (dlt (slack h c') ZERO_UPPERBOUND) eqn:Hlt'; [|done].
      destruct (dlt_cotrans _ _ _ Hlt' Hmax) as [H|H]; [|congruence].
      rewrite Hmin in H; [done|]. by eapply list_elem_of_lookup_2.
  - intros _. split; [|left]; apply Forall_lookup; intros j c Hj;
      destruct (Forall_lookup_1 _ _ _ _ Hnone Hj) as [He Hc]; [done|].
    destruct (dlt (slack h c) ZERO_UPPERBOUND) eqn:Hlt; [|done].
    assert (Hz : dlt ZERO_UPPERBOUND DBL_MAX = true) by reflexivity.
    by rewrite (dlt_trans _ _ _ Hlt Hz) in Hc.
Qed.

(** Whenever the merge loop of [IncSolver::satisfy] ends, [inactive]
    holds no equality constraint, and either none of its constraints has a
    slack below [ZERO_UPPERBOUND], or the first one of least slack has and
    is flagged active: the loop stops on it though it is violated. *)
Theorem satisfy_loop_exit fuel : forall s h s' h',
  satisfy_loop fuel s h = Some (Ok (s', h')) ->
  Forall (fun c => equality h' c = false) (inactive s') /\
  (Forall (fun c => dlt (slack h' c) ZERO_UPPERBOUND = false) (inactive s') \/
   exists i c, first_least_slack h' (inactive s') i c /\
               active h' c = true /\ dlt (slack h' c) ZERO_UPPERBOUND = true).
Proof.
  induction fuel as [|fuel IH]; intros s h s' h'; simpl; [done|].
  destruct (satisfy_turn s h) as [[s1 h1|s1 h1]| |] eqn:Ht; try done.
  - intros [= <- <-]. by eapply satisfy_turn_break.
  - apply IH.
Qed.

End LoopExit.

(** ** Cycles of a finite graph *)

Section Cycles.
Import stdpp.relations.
Context (R : relation nat).

Lemma tc_inv_last x z : tc R x z -> exists p, rtc R x p /\ R p z.
Proof.
  induction 1 as [x z H|x y z H _ (p & Hp & Hz)].
  - exists x. split; [apply rtc_refl|done].
  - exists p. split; [|done]. by eapply rtc_l.
Qed.

(** A node on a cycle has a predecessor on a cycle. *)
Lemma tc_cycle_pred x : tc R x x -> exists p, R p x /\ tc R p p.
Proof.
  intros (p & Hp & Hx)%tc_inv_last. exists p. split; [done|].
  apply rtc_tc in Hp as [->|Hp]; [by apply tc_once|by eapply tc_l].
Qed.

Lemma chain_tc l : forall i j a b,
  chain R l -> i < j -> l !! i = Some a -> l !! j = Some b -> tc R a b.
Proof.
  induction l as [|x l IH]; intros i j a b Hc Hij Ha Hb; [done|].
  destruct j as [|j]; [lia|]. simpl in Hb.
  destruct l as [|y l]; [done|]. destruct Hc as [Hxy Hc].
  destruct i as [|i]; simpl in Ha.
  - injection Ha as ->. destruct j as [|j]; simpl in Hb.
    + injection Hb as ->. by apply tc_once.
    + eapply tc_l; [done|]. apply (IH 0 (S j)); [done|lia|done|done].
  - apply (IH i j); [done|lia|done|done].
Qed.

Lemma dup_or_NoDup (l : list nat) :
  NoDup l \/ exists i j x, i < j /\ l !! i = Some x /\ l !! j = Some x.
Proof.
  induction l as [|x l [IH|(i & j & y & Hij & Hi & Hj)]].
  - left. constructor.
  - destruct (decide (x ∈ l)) as [Hx|Hx].
    + right. apply list_elem_of_lookup in Hx as [j Hj].
      exists 0, (S j), x. split; [lia|done].
    + left. by constructor.
  - right. exists (S i), (S j), y. split; [lia|done].
Qed.

(** In a finite, non-empty set of nodes each of which has a predecessor
    in the set, some node is on a cycle. *)
Lemma every_pred_cycle (V : list nat) :
  V <> [] -> (forall x, x ∈ V -> exists y, y ∈ V /\ R y x) ->
  exists x, tc R x x.
Proof.
  intros Hne Hpred.
  assert (Hpath : forall k, exists l,
            length l = S k /\ chain R l /\ forall y, y ∈ l -> y ∈ V).
  { induction k as [|k (l & Hlen & Hc & HV)].
    - destruct V as [|x V]; [done|]. exists [x]. split; [done|]. split; [done|].
      intros y ->%list_elem_of_singleton. by left.
    - destruct l as [|a l]; [done|].
      destruct (Hpred a) as (y & Hy & Hya); [apply HV; by left|].
      exists (y :: a :: l). split; [simpl in *; lia|]. split; [done|].
      intros z [->|Hz]%elem_of_cons; [done|by apply HV]. }
  destruct (Hpath (length V)) as (l & Hlen & Hc & HV).
  destruct (dup_or_NoDup l) as [Hnd|(i & j & x & Hij & Hi & Hj)].
  - pose proof (submseteq_length _ _ (NoDup_submseteq _ _ Hnd HV)). lia.
  - exists x. by eapply chain_tc.
Qed.

End Cycles.

(** ** The loop of [constraintGraphIsCyclic] *)

Section RemoveSources.
Import stdpp.gmap stdpp.relations Cyclic.
Context (R : relation nat).

Implicit Types (g : list nat) (ns : gmap nat node) (p : nptr).

(** The nodes of [graph] are the live ones; a node's [in] holds its
    predecessors still in [graph], its [out] all its successors, which are
    all still in [graph]; and every cycle lies in [graph]. *)
Lemma find_source_spec ns g : forall i0,
  (forall u, u ∈ g -> is_Some (ns !! u)) ->
  (find_source ns g i0 = Ok None /\
   forall u nd, u ∈ g -> ns !! u = Some nd -> exists p, p ∈ in_ nd) \/
  (exists k u nd, find_source ns g i0 = Ok (Some (i0 + k, u)) /\
                  g !! k = Some u /\ ns !! u = Some nd /\ in_ nd = ∅).
Proof.
  induction g as [|u g IH]; intros i0 Hlive; simpl.
  - left. split; [done|]. intros u nd Hu. by apply elem_of_nil in Hu.
  - destruct (Hlive u) as [nd Hnd]; [by left|]. rewrite Hnd. simpl.
    destruct (size (in_ nd) =? 0) eqn:Hsz.
    + right. exists 0, u, nd. rewrite Nat.add_0_r. do 3 (split; [done|]).
      apply Nat.eqb_eq, size_empty_iff in Hsz. by apply leibniz_equiv.
    + destruct (IH (S i0)) as [[-> Hall]|(k & u' & nd' & -> & Hk & Hu' & He)].
      { intros u' Hu'. apply Hlive. by right. }
      * left. split; [done|]. intros u' nd' [->|Hu']%elem_of_cons Hnd'.
        -- rewrite Hnd in Hnd'. injection Hnd' as <-.
           apply Nat.eqb_neq in Hsz. apply size_pos_elem_of. lia.
        -- by eapply Hall.
      * right. exists (S k), u', nd'. split; [f_equal; f_equal; f_equal; lia|done].
Qed.

Lemma erase_in_live u ns v nd :
  ns !! v = Some nd ->
  erase_in u ns (Some v) = Ok (<[v := mkNode (in_ nd ∖ {[Some u]}) (out nd)]> ns).
Proof. intros H. unfold erase_in. simpl. by rewrite H. Qed.

Lemma erase_fold u (l : list nptr) : forall ns,
  (forall p, p ∈ l -> exists v, p = Some v /\ is_Some (ns !! v)) ->
  exists ns', foldM (erase_in u) ns l = Ok ns' /\
    forall i, match ns !! i, ns' !! i with
              | Some nd, Some nd' =>
                  out nd' = out nd /\
                  forall p, p ∈ in_ nd' <-> p ∈ in_ nd /\ (Some i ∈ l -> p <> Some u)
              | None, None => True
              | _, _ => False
              end.
Proof.
  induction l as [|p l IH]; intros ns Hl; simpl.
  - exists ns. split; [done|]. intros i. destruct (ns !! i) as [nd|]; [|done].
    split; [done|]. intros p. split; [|tauto]. intros Hp. split; [done|].
    by intros ?%elem_of_nil.
  - destruct (Hl p) as (v & -> & [nd Hnd]); [by left|].
    rewrite (erase_in_live u ns v nd Hnd). simpl.
    destruct (IH (<[v := mkNode (in_ nd ∖ {[Some u]}) (out nd)]> ns))
      as (ns' & -> & Hns').
    { intros p Hp. destruct (Hl p) as (w & -> & Hw); [by right|].
      exists w. split; [done|]. rewrite lookup_insert_is_Some'. tauto. }
    exists ns'. split; [done|]. intros i. specialize (Hns' i).
    destruct (decide (v = i)) as [->|Hne].
    + rewrite lookup_insert_eq in Hns'. rewrite Hnd.
      destruct (ns' !! i) as [nd'|]; [|done]. simpl in Hns'.
      destruct Hns' as [Ho Hi]. split; [done|]. intros p. rewrite Hi.
      set_unfold. clear. intuition congruence.
    + rewrite lookup_insert_ne in Hns' by done.
      destruct (ns !! i) as [ndi|], (ns' !! i) as [nd'|]; try done.
      destruct Hns' as [Ho Hi]. split; [done|]. intros p. rewrite Hi.
      set_unfold. clear -Hne. intuition congruence.
Qed.

Lemma delete_nodup g k u :
  NoDup g -> g !! k = Some u ->
  NoDup (delete k g) /\ forall x, x ∈ delete k g <-> x ∈ g /\ x <> u.
Proof.
  intros Hnd Hk. pose proof (delete_Permutation g k u Hk) as Hp.
  assert (Hnd' : NoDup (u :: delete k g)) by by rewrite <- Hp.
  apply NoDup_cons in Hnd' as [Hu Hnd']. split; [done|]. intros x.
  assert (Hx : x ∈ g <-> x ∈ u :: delete k g) by by rewrite <- Hp.
  rewrite Hx, elem_of_cons. split; [|tauto].
  intros Hd. split; [tauto|]. by intros ->.
Qed.

Lemma remove_source_inv g ns k u nd :
  graph_inv R g ns -> g !! k = Some u -> ns !! u = Some nd -> in_ nd = ∅ ->
  exists ns', remove_source k u g ns = Ok (delete k g, ns') /\
              graph_inv R (delete k g) ns'.
Proof.
  intros [Hnd Hdom Hin Hout Hcl Hcyc] Hk Hu Hempty.
  assert (Hug : u ∈ g) by by eapply list_elem_of_lookup_2.
  assert (Hnopred : forall j, j ∈ g -> ~ R j u).
  { intros j Hj Hr. assert (Some j ∈ in_ nd) as Hj'.
    { apply (Hin u nd); [done|]. by exists j. }
    rewrite Hempty in Hj'. by apply not_elem_of_empty in Hj'. }
  destruct (erase_fold u (elements (out nd)) ns) as (ns1 & Hfold & Hns1).
  { intros p Hp%elem_of_elements. apply (Hout u nd p Hu) in Hp as (j & -> & Hr).
    exists j. split; [done|]. apply Hdom. by eapply Hcl. }
  destruct (delete_nodup g k u Hnd Hk) as [Hnd' Hmem].
  exists (delete u ns1). split.
  { unfold remove_source. rewrite Hu. simpl. by rewrite Hfold. }
  assert (Hlook : forall i nd', delete u ns1 !! i = Some nd' ->
            i <> u /\ exists nd0, ns !! i = Some nd0 /\ out nd' = out nd0 /\
            forall p, p ∈ in_ nd' <-> p ∈ in_ nd0 /\ p <> Some u).
  { intros i nd' Hi. apply lookup_delete_Some in Hi as [Hne Hi].
    split; [done|]. specialize (Hns1 i). rewrite Hi in Hns1.
    destruct (ns !! i) as [nd0|] eqn:Hi0; [|done]. destruct Hns1 as [Ho Hi1].
    exists nd0. split; [done|]. split; [done|]. intros p. rewrite Hi1.
    split; [|tauto]. intros [Hp Hpu]. split; [done|]. intros ->.
    apply Hpu; [|done]. apply elem_of_elements, (Hout u nd _ Hu).
    apply (Hin i nd0 _ Hi0) in Hp as (j & [= <-] & _ & Hr). by exists i. }
  split.
  - done.
  - intros i. rewrite Hmem, Hdom. unfold is_Some.
    setoid_rewrite lookup_delete_Some. specialize (Hns1 i). split.
    + intros [[nd0 Hi0] Hne]. rewrite Hi0 in Hns1.
      destruct (ns1 !! i) as [nd'|]; [|done]. by exists nd'.
    + intros (nd' & Hne & Hi). rewrite Hi in Hns1. split; [|done].
      destruct (ns !! i); [by eexists|done].
  - intros i nd' p Hi. apply Hlook in Hi as (Hne & nd0 & Hi0 & _ & Hp).
    rewrite Hp, (Hin i nd0 p Hi0). setoid_rewrite Hmem. split.
    + intros [(j & -> & Hj & Hr) Hpu]. exists j. split; [done|].
      split; [|done]. split; [done|congruence].
    + intros (j & -> & [Hj Hju] & Hr). split; [by exists j|]. congruence.
  - intros i nd' p Hi. apply Hlook in Hi as (Hne & nd0 & Hi0 & Ho & _).
    rewrite Ho. by apply Hout.
  - intros i j [Hi Hne]%Hmem Hr. apply Hmem. split; [by eapply Hcl|].
    intros ->. by eapply Hnopred.
  - intros x Hx. apply Hmem. split; [by apply Hcyc|]. intros ->.
    apply tc_cycle_pred in Hx as (p & Hp & Hpp). apply (Hnopred p); [by apply Hcyc|done].
Qed.

(** The loop ends within [graph.size()] turns, with [true] exactly when
    the graph has a cycle. *)
Lemma remove_sources_spec fuel : forall g ns,
  graph_inv R g ns -> length g <= fuel ->
  exists b, remove_sources fuel g ns = Some (Ok b) /\ (b = true <-> exists x, tc R x x).
Proof.
  induction fuel as [|fuel IH]; intros g ns Hinv Hlen.
  - destruct g; [|simpl in Hlen; lia]. exists false. split; [done|].
    split; [done|]. intros [x Hx%(inv_cycles R _ _ Hinv)]. by apply elem_of_nil in Hx.
  - destruct g as [|u0 g0] eqn:Eg.
    { exists false. split; [done|]. split; [done|].
      intros [x Hx%(inv_cycles R _ _ Hinv)]. by apply elem_of_nil in Hx. }
    rewrite <- Eg in *. assert (Hne : g <> []) by (rewrite Eg; done).
    assert (Hstep : remove_sources (S fuel) g ns =
              match find_source ns g 0 with
              | Ok None => Some (Ok true)
              | Ok (Some (i, u)) =>
                  match remove_source i u g ns with
                  | Ok (g, ns) => remove_sources fuel g ns
                  | Throw e => Some (Throw e)
                  | Undefined => Some Undefined
                  end
              | Throw e => Some (Throw e)
              | Undefined => Some Undefined
              end) by (rewrite Eg; done).
    rewrite Hstep. clear Hstep.
    destruct (find_source_spec ns g 0) as [[-> Hall]|(k & u & nd & -> & Hk & Hu & He)].
    { intros u Hu. by apply (inv_dom R _ _ Hinv). }
    + exists true. split; [done|]. split; [|done]. intros _.
      apply (every_pred_cycle R g Hne). intros x Hx.
      destruct (proj1 (inv_dom R _ _ Hinv x) Hx) as [nd Hnd].
      destruct (Hall x nd Hx Hnd) as [p Hp].
      apply (inv_in R _ _ Hinv x nd p Hnd) in Hp as (j & _ & Hj & Hr). by exists j.
    + simpl. destruct (remove_source_inv g ns k u nd Hinv Hk Hu He) as (ns' & -> & Hinv').
      apply IH; [done|]. rewrite length_delete by by eexists. lia.
Qed.

End RemoveSources.

(** ** The two loops that build the graph *)

Section Build.
Import stdpp.gmap stdpp.relations Cyclic.
Context (h : Heap) (vs : list vptr).
Hypothesis vs_nodup : NoDup vs.

Lemma make_nodes_spec k : forall i st,
  i + k <= length vs ->
  exists st', make_nodes vs i k st = Ok st' /\
    graph st' = graph st ++ seq i k /\
    (forall j, nodes st' !! j =
       if decide (i <= j < i + k) then Some (mkNode ∅ ∅) else nodes st !! j) /\
    (forall v j, i <= j < i + k -> vs !! j = Some v -> varmap st' !! v = Some (Some j)) /\
    (forall v, (forall j, i <= j < i + k -> vs !! j <> Some v) ->
               varmap st' !! v = varmap st !! v).
Proof.
  induction k as [|k IH]; intros i st Hik; simpl.
  - exists st. split; [done|]. split; [by rewrite app_nil_r|]. split.
    + intros j. destruct (decide _); [lia|done].
    + split; [intros; lia|done].
  - destruct (lookup_lt_is_Some_2 vs i) as [v0 Hv0]; [lia|]. rewrite Hv0. simpl.
    destruct (IH (S i) (mkState (graph st ++ [i]) (<[i := mkNode ∅ ∅]> (nodes st))
                                (<[v0 := Some i]> (varmap st))))
      as (st' & -> & Hg & Hn & Hm1 & Hm2); [lia|].
    exists st'. split; [done|]. simpl in *. split; [by rewrite Hg, <- app_assoc|].
    split; [|split].
    + intros j. rewrite Hn. destruct (decide (i = j)) as [->|Hne].
      * rewrite lookup_insert_eq. by repeat destruct (decide _); try lia.
      * rewrite lookup_insert_ne by done. by repeat destruct (decide _); try lia.
    + intros v j Hj Hv. destruct (decide (i = j)) as [->|Hne].
      * assert (v = v0) as -> by congruence.
        rewrite Hm2, lookup_insert_eq; [done|]. intros j' Hj' Hv'.
        pose proof (NoDup_lookup _ _ _ _ vs_nodup Hv Hv'). lia.
      * apply Hm1; [lia|done].
    + intros v Hv. rewrite Hm2 by (intros j Hj; apply Hv; lia).
      apply lookup_insert_ne. intros ->. apply (Hv i); [lia|done].
Qed.

Lemma insert_in_fold (f : cptr -> nptr) a l : forall ns nd,
  ns !! a = Some nd ->
  exists nd', foldM (fun ns c => insert_in (Some a) ns (f c)) ns l = Ok (<[a := nd']> ns) /\
    out nd' = out nd /\
    forall p, p ∈ in_ nd' <-> p ∈ in_ nd \/ exists c, c ∈ l /\ p = f c.
Proof.
  induction l as [|c l IH]; intros ns nd Ha; simpl.
  - exists nd. rewrite insert_id by done. split; [done|]. split; [done|]. intros p.
    split; [tauto|]. intros [?|(c & Hc%elem_of_nil & _)]; done.
  - unfold insert_in at 2. simpl. rewrite Ha. simpl.
    destruct (IH (<[a := mkNode ({[f c]} ∪ in_ nd) (out nd)]> ns)
                 (mkNode ({[f c]} ∪ in_ nd) (out nd))) as (nd' & -> & Ho & Hi).
    { apply lookup_insert_eq. }
    exists nd'. split; [by rewrite insert_insert_eq|]. split; [done|].
    intros p. rewrite Hi. simpl. setoid_rewrite elem_of_cons.
    rewrite elem_of_union, elem_of_singleton. split.
    + intros [[->|?]|(c' & Hc' & ->)];
        [right; exists c; split; [by left|done]|by left
        |right; exists c'; split; [by right|done]].
    + intros [?|(c' & [->|Hc'] & ->)]; [by left; right|by left; left|right; by exists c'].
Qed.

Lemma insert_out_fold (f : cptr -> nptr) a l : forall ns nd,
  ns !! a = Some nd ->
  exists nd', foldM (fun ns c => insert_out (Some a) ns (f c)) ns l = Ok (<[a := nd']> ns) /\
    in_ nd' = in_ nd /\
    forall p, p ∈ out nd' <-> p ∈ out nd \/ exists c, c ∈ l /\ p = f c.
Proof.
  induction l as [|c l IH]; intros ns nd Ha; simpl.
  - exists nd. rewrite insert_id by done. split; [done|]. split; [done|]. intros p.
    split; [tauto|]. intros [?|(c & Hc%elem_of_nil & _)]; done.
  - unfold insert_out at 2. simpl. rewrite Ha. simpl.
    destruct (IH (<[a := mkNode (in_ nd) ({[f c]} ∪ out nd)]> ns)
                 (mkNode (in_ nd) ({[f c]} ∪ out nd))) as (nd' & -> & Ho & Hi).
    { apply lookup_insert_eq. }
    exists nd'. split; [by rewrite insert_insert_eq|]. split; [done|].
    intros p. rewrite Hi. simpl. setoid_rewrite elem_of_cons.
    rewrite elem_of_union, elem_of_singleton. split.
    + intros [[->|?]|(c' & Hc' & ->)];
        [right; exists c; split; [by left|done]|by left
        |right; exists c'; split; [by right|done]].
    + intros [?|(c' & [->|Hc'] & ->)]; [by left; right|by left; left|right; by exists c'].
Qed.

Lemma fill_node_spec m ns v a :
  at_ m v = Some a -> ns !! a = Some (mkNode ∅ ∅) ->
  exists nd, fill_node h m ns v = Ok (<[a := nd]> ns) /\ filled h m v nd.
Proof.
  intros Hv Ha. unfold fill_node. rewrite Hv.
  destruct (insert_in_fold (fun c => at_ m (Constraint.left (constraints h c))) a
              (Var.in_ (variables h v)) ns _ Ha) as (nd1 & -> & Ho1 & Hi1).
  simpl.
  destruct (insert_out_fold (fun c => at_ m (Constraint.right (constraints h c))) a
              (Var.out (variables h v)) (<[a := nd1]> ns) nd1) as (nd2 & -> & Hi2 & Ho2).
  { apply lookup_insert_eq. }
  exists nd2. split; [by rewrite insert_insert_eq|]. split; intros p.
  - rewrite Hi2, Hi1. simpl. split; [|tauto]. intros [H%not_elem_of_empty|H]; done.
  - rewrite Ho2, Ho1. simpl. split; [|tauto]. intros [H%not_elem_of_empty|H]; done.
Qed.

Lemma fill_spec m k : forall i ns,
  i + k <= length vs ->
  (forall v j, vs !! j = Some v -> at_ m v = Some j) ->
  (forall j, i <= j < i + k -> ns !! j = Some (mkNode ∅ ∅)) ->
  exists ns', fill h m vs i k ns = Ok ns' /\
    (forall j v, i <= j < i + k -> vs !! j = Some v ->
       exists nd, ns' !! j = Some nd /\ filled h m v nd) /\
    (forall j, ~ i <= j < i + k -> ns' !! j = ns !! j).
Proof.
  induction k as [|k IH]; intros i ns Hik Hm Hns; simpl.
  - exists ns. split; [done|]. split; [intros; lia|done].
  - destruct (lookup_lt_is_Some_2 vs i) as [v0 Hv0]; [lia|]. rewrite Hv0. simpl.
    destruct (fill_node_spec m ns v0 i) as (nd & -> & Hnd);
      [by apply Hm|apply Hns; lia|]. simpl.
    destruct (IH (S i) (<[i := nd]> ns)) as (ns' & -> & Hin & Hout); [lia|done| |].
    { intros j Hj. rewrite lookup_insert_ne by lia. apply Hns. lia. }
    exists ns'. split; [done|]. split.
    + intros j v Hj Hv. destruct (decide (i = j)) as [->|Hne].
      * assert (v = v0) as -> by congruence. exists nd.
        rewrite Hout by lia. by rewrite lookup_insert_eq.
      * apply Hin; [lia|done].
    + intros j Hj. rewrite Hout by lia. apply lookup_insert_ne. lia.
Qed.

End Build.

Section Correct.
Import stdpp.gmap stdpp.relations Cyclic.
Context (h : Heap) (vs : list vptr) (cs : list cptr).
Hypothesis vs_nodup : NoDup vs.
Hypothesis vs_in : forall v c, v ∈ vs ->
  c ∈ Var.in_ (variables h v) <-> c ∈ cs /\ Constraint.right (constraints h c) = v.
Hypothesis vs_out : forall v c, v ∈ vs ->
  c ∈ Var.out (variables h v) <-> c ∈ cs /\ Constraint.left (constraints h c) = v.
Hypothesis cs_closed : forall c, c ∈ cs ->
  Constraint.left (constraints h c) ∈ vs /\ Constraint.right (constraints h c) ∈ vs.

Lemma index_edge_tc i j :
  tc (index_edge h vs cs) i j ->
  exists u v, vs !! i = Some u /\ vs !! j = Some v /\ tc (constraint_edge h cs) u v.
Proof.
  induction 1 as [i j (u & v & Hi & Hj & He)
                 |i j k (u & v & Hi & Hj & He) _ (v' & w & Hj' & Hk & Ht)].
  - exists u, v. do 2 (split; [done|]). by apply tc_once.
  - exists u, w. do 2 (split; [done|]). assert (v' = v) as -> by congruence.
    by eapply tc_l.
Qed.

Lemma constraint_edge_index u v :
  constraint_edge h cs u v ->
  exists i j, vs !! i = Some u /\ vs !! j = Some v.
Proof.
  intros (c & Hc & <- & <-). destruct (cs_closed c Hc) as [Hl Hr].
  apply list_elem_of_lookup in Hl as [i Hi], Hr as [j Hj]. by exists i, j.
Qed.

Lemma constraint_edge_tc u v :
  tc (constraint_edge h cs) u v ->
  exists i j, vs !! i = Some u /\ vs !! j = Some v /\ tc (index_edge h vs cs) i j.
Proof.
  induction 1 as [u v He|u v w He _ (j & k & Hj & Hk & Ht)].
  - destruct (constraint_edge_index u v He) as (i & j & Hi & Hj).
    exists i, j. do 2 (split; [done|]). apply tc_once. by exists u, v.
  - destruct (constraint_edge_index u v He) as (i & _ & Hi & _).
    exists i, k. do 2 (split; [done|]). eapply tc_l; [|done]. by exists u, v.
Qed.

Lemma cycle_transfer :
  (exists x, tc (index_edge h vs cs) x x) <-> (exists v, tc (constraint_edge h cs) v v).
Proof.
  split.
  - intros [x (u & v & Hu & Hv & Ht)%index_edge_tc]. exists u.
    by assert (v = u) as -> by congruence.
  - intros [v (i & j & Hi & Hj & Ht)%constraint_edge_tc]. exists i.
    by rewrite (NoDup_lookup _ _ _ _ vs_nodup Hi Hj) in *.
Qed.

Lemma cyclic_graph_spec :
  exists b, constraintGraphIsCyclic h (length vs) vs = Some (Ok b) /\
            (b = true <-> exists v, tc (constraint_edge h cs) v v).
Proof.
  unfold constraintGraphIsCyclic.
  destruct (make_nodes_spec vs vs_nodup (length vs) 0 (mkState [] ∅ ∅))
    as (st & -> & Hg & Hn & Hm1 & Hm2); [lia|]. simpl in *.
  assert (Hm : forall v j, vs !! j = Some v -> at_ (varmap st) v = Some j).
  { intros v j Hv. unfold at_. rewrite (Hm1 v j); [done| |done].
    apply lookup_lt_Some in Hv. lia. }
  destruct (fill_spec h vs (varmap st) (length vs) 0 (nodes st))
    as (ns & -> & Hin & Hout); [lia|done| |].
  { intros j Hj. rewrite Hn. by destruct (decide _). }
  simpl. rewrite Hg, length_seq.
  destruct (remove_sources_spec (index_edge h vs cs) (length vs) (seq 0 (length vs)) ns)
    as (b & Hb & Hcyc); [|by rewrite length_seq
                         |exists b; split; [done|by rewrite <- cycle_transfer]].
  assert (Hidx : forall i j, index_edge h vs cs i j -> i < length vs /\ j < length vs).
  { intros i j (u & v & Hi%lookup_lt_Some & Hj%lookup_lt_Some & _). lia. }
  assert (Hnode : forall i nd, ns !! i = Some nd ->
            exists v, vs !! i = Some v /\ filled h (varmap st) v nd).
  { intros i nd Hi. destruct (decide (i < length vs)) as [Hlt|Hge].
    - destruct (lookup_lt_is_Some_2 vs i Hlt) as [v Hv]. exists v. split; [done|].
      destruct (Hin i v) as (nd' & Hi' & Hf); [lia|done|]. congruence.
    - rewrite Hout, Hn in Hi by lia. destruct (decide _); [lia|].
      by rewrite lookup_empty in Hi. }
  split.
  - apply NoDup_seq.
  - intros i. rewrite elem_of_seq. split.
    + intros Hi. destruct (lookup_lt_is_Some_2 vs i) as [v Hv]; [lia|].
      destruct (Hin i v) as (nd & Hi' & _); [lia|done|]. by exists nd.
    + intros [nd (v & Hv%lookup_lt_Some & _)%Hnode]. lia.
  - intros i nd p (v & Hv & Hf & _)%Hnode. rewrite Hf. split.
    + intros (c & (Hc & Hr)%vs_in & ->); [|by eapply list_elem_of_lookup_2].
      destruct (cs_closed c Hc) as [[j Hj]%list_elem_of_lookup _].
      exists j. split; [by apply Hm|]. split.
      * apply elem_of_seq. apply lookup_lt_Some in Hj. lia.
      * exists (Constraint.left (constraints h c)), v. do 2 (split; [done|]).
        by exists c.
    + intros (j & -> & _ & u & v' & Hj & Hi & c & Hc & Hl & Hr).
      assert (v' = v) as -> by congruence. exists c. split.
      * apply vs_in; [by eapply list_elem_of_lookup_2|done].
      * rewrite Hl. symmetry. by apply Hm.
  - intros i nd p (v & Hv & _ & Hf)%Hnode. rewrite Hf. split.
    + intros (c & (Hc & Hl)%vs_out & ->); [|by eapply list_elem_of_lookup_2].
      destruct (cs_closed c Hc) as [_ [j Hj]%list_elem_of_lookup].
      exists j. split; [by apply Hm|].
      exists v, (Constraint.right (constraints h c)). do 2 (split; [done|]).
      by exists c.
    + intros (j & -> & u & v' & Hi & Hj & c & Hc & Hl & Hr).
      assert (u = v) as -> by congruence. exists c. split.
      * apply vs_out; [by eapply list_elem_of_lookup_2|done].
      * rewrite Hr. symmetry. by apply Hm.
  - intros i j _ [_ Hj]%Hidx. apply elem_of_seq. lia.
  - intros x (p & [_ Hx]%Hidx & _)%tc_cycle_pred. apply elem_of_seq. lia.
Qed.

End Correct.

(** ** Runs that meet a null pointer *)

Section Returns.
Import stdpp.gmap Cyclic.

Lemma returns_bind {A B} (o : outcome A) (f : A -> outcome B) :
  returns o -> (forall a, returns (f a)) -> returns (o ≫= f).
Proof. intros [->|[a ->]] Hf; [by left|apply Hf]. Qed.

Lemma returns_deref {A} (p : option A) : returns (deref p).
Proof. destruct p as [a|]; [right; by exists a|by left]. Qed.

Lemma returns_foldM {A B} (f : A -> B -> outcome A) l : forall a,
  (forall a b, returns (f a b)) -> returns (foldM f a l).
Proof.
  induction l as [|b l IH]; intros a Hf; simpl.
  - right. by exists a.
  - apply returns_bind; [apply Hf|]. intros a'. by apply IH.
Qed.

Lemma returns_make_nodes vs k : forall i st, returns (make_nodes vs i k st).
Proof.
  induction k as [|k IH]; intros i st; simpl.
  - right. by exists st.
  - apply returns_bind; [apply returns_deref|]. intros v. apply IH.
Qed.

Lemma returns_fill h m vs k : forall i ns, returns (fill h m vs i k ns).
Proof.
  induction k as [|k IH]; intros i ns; simpl.
  - right. by exists ns.
  - apply returns_bind; [apply returns_deref|]. intros v.
    apply returns_bind; [|intros ns'; apply IH].
    apply returns_bind; [|intros ns'];
      (apply returns_foldM; intros ns1 c;
       apply returns_bind; [apply returns_deref|]; intros a;
       apply returns_bind; [apply returns_deref|]; intros nd; right; by eexists).
Qed.

Lemma find_source_cases ns g : forall i0,
  find_source ns g i0 = Undefined \/ find_source ns g i0 = Ok None \/
  exists k u nd, find_source ns g i0 = Ok (Some (i0 + k, u)) /\
                 g !! k = Some u /\ ns !! u = Some nd /\ in_ nd = ∅.
Proof.
  induction g as [|u g IH]; intros i0; simpl; [by right; left|].
  destruct (ns !! u) as [nd|] eqn:Hu; simpl; [|by left].
  destruct (size (in_ nd) =? 0) eqn:Hsz.
  - right. right. exists 0, u, nd. rewrite Nat.add_0_r. do 3 (split; [done|]).
    apply Nat.eqb_eq, size_empty_iff in Hsz. by apply leibniz_equiv.
  - destruct (IH (S i0)) as [->|[->|(k & u' & nd' & -> & Hk & Hu' & He)]];
      [by left|by right; left|].
    right. right. exists (S k), u', nd'. split; [f_equal; f_equal; f_equal; lia|done].
Qed.

Lemma erase_fold_cases u (l : list nptr) : forall ns,
  foldM (erase_in u) ns l = Undefined \/
  exists ns', foldM (erase_in u) ns l = Ok ns' /\ (None ∉ l) /\
    forall i nd, ns !! i = Some nd ->
      exists nd', ns' !! i = Some nd' /\ out nd' = out nd /\
                  (None ∈ in_ nd -> None ∈ in_ nd').
Proof.
  induction l as [|p l IH]; intros ns; simpl.
  - right. exists ns. split; [done|]. split; [by intros ?%elem_of_nil|].
    intros i nd Hi. by exists nd.
  - destruct p as [v|]; [|by left].
    destruct (ns !! v) as [ndv|] eqn:Hv.
    + rewrite (erase_in_live u ns v ndv Hv). simpl.
      destruct (IH (<[v := mkNode (in_ ndv ∖ {[Some u]}) (out ndv)]> ns))
        as [->|(ns' & -> & Hl & Hns')]; [by left|].
      right. exists ns'. split; [done|]. split.
      { intros [?|?]%elem_of_cons; done. }
      intros i nd Hi. destruct (decide (v = i)) as [->|Hne].
      * destruct (Hns' i (mkNode (in_ ndv ∖ {[Some u]}) (out ndv)))
          as (nd' & Hi' & Ho & Hn); [apply lookup_insert_eq|].
        exists nd'. split; [done|]. assert (ndv = nd) as -> by congruence.
        split; [done|]. intros Hnone. apply Hn. simpl.
        apply elem_of_difference. split; [done|]. by intros ?%elem_of_singleton.
      * apply Hns'. by rewrite lookup_insert_ne.
    + assert (erase_in u ns (Some v) = Undefined) as ->; [|by left].
      unfold erase_in. simpl. by rewrite Hv.
Qed.

Lemma elem_of_delete_ne (g : list nat) k u x :
  g !! k = Some u -> x ∈ g -> x <> u -> x ∈ delete k g.
Proof.
  intros Hk Hx Hne. pose proof (delete_Permutation g k u Hk) as Hp.
  rewrite Hp in Hx. by apply elem_of_cons in Hx as [?|?].
Qed.

(** Within [graph.size()] turns the loop returns or runs into undefined
    behaviour, and it does not return [false] while a node holds a null
    pointer. *)
Lemma remove_sources_cases fuel : forall g ns,
  length g <= fuel ->
  remove_sources fuel g ns = Some Undefined \/
  remove_sources fuel g ns = Some (Ok true) \/
  remove_sources fuel g ns = Some (Ok false) /\ ~ stuck g ns.
Proof.
  induction fuel as [|fuel IH]; intros g ns Hlen.
  - destruct g; [|simpl in Hlen; lia]. right. right. split; [done|].
    by intros (x & nd & Hx%elem_of_nil & _).
  - destruct g as [|u0 g0] eqn:Eg.
    { right. right. split; [done|]. by intros (x & nd & Hx%elem_of_nil & _). }
    rewrite <- Eg in *.
    assert (Hstep : remove_sources (S fuel) g ns =
              match find_source ns g 0 with
              | Ok None => Some (Ok true)
              | Ok (Some (i, u)) =>
                  match remove_source i u g ns with
                  | Ok (g, ns) => remove_sources fuel g ns
                  | Throw e => Some (Throw e)
                  | Undefined => Some Undefined
                  end
              | Throw e => Some (Throw e)
              | Undefined => Some Undefined
              end) by (rewrite Eg; done).
    rewrite Hstep. clear Hstep.
    destruct (find_source_cases ns g 0) as [->|[->|(k & u & nd & -> & Hk & Hu & He)]];
      [by left|by right; left|]. simpl.
    unfold remove_source. rewrite Hu. simpl.
    destruct (erase_fold_cases u (elements (out nd)) ns) as [->|(ns1 & -> & Hnone & Hns1)];
      [by left|]. simpl.
    destruct (IH (delete k g) (delete u ns1)) as [->|[->|[-> Hstuck]]];
      [|by left|by right; left|].
    { rewrite length_delete by by eexists. lia. }
    right. right. split; [done|]. intros (x & ndx & Hx & Hndx & Hnull).
    destruct (decide (x = u)) as [->|Hne].
    + assert (ndx = nd) as -> by congruence. destruct Hnull as [Hnull|Hnull].
      * rewrite He in Hnull. by apply not_elem_of_empty in Hnull.
      * by apply Hnone, elem_of_elements.
    + apply Hstuck. destruct (Hns1 x ndx Hndx) as (nd' & Hx' & Ho & Hi).
      exists x, nd'. split; [by eapply elem_of_delete_ne|].
      split; [by rewrite lookup_delete_ne|].
      destruct Hnull as [?|?]; [left; by apply Hi|right; by rewrite Ho].
Qed.

(** [constraintGraphIsCyclic] throws nothing and its [while] loop ends
    within [graph.size()] turns, on every heap, [n] and [vs]: the call
    returns a boolean, or it has met undefined behaviour (an index of
    [vs] out of range, a null or dangling [node*]). *)
Theorem constraintGraphIsCyclic_returns h n vs :
  constraintGraphIsCyclic h n vs = Some Undefined \/
  exists b, constraintGraphIsCyclic h n vs = Some (Ok b).
Proof.
  unfold constraintGraphIsCyclic.
  destruct (returns_make_nodes vs n 0 (mkState [] ∅ ∅)) as [->|[st ->]]; [by left|].
  simpl. destruct (returns_fill h (varmap st) vs n 0 (nodes st)) as [->|[ns ->]];
    [by left|]. simpl.
  destruct (remove_sources_cases (length (graph st)) (graph st) ns)
    as [->|[->|[-> _]]]; [done|by left|right; by eexists|right; by eexists].
Qed.

(** When a variable of [vs] has, in its [in] or [out] list, a constraint
    whose other end is not in [vs], [varmap] gives a null pointer for that
    end and the null is entered in the node's set. The call then never
    returns [false]: it reports a cycle, whether there is one or not, or
    it dereferences the null in [v->in.erase(u)]. *)
Theorem constraintGraphIsCyclic_foreign h vs v :
  NoDup vs -> v ∈ vs ->
  (exists c, c ∈ Var.in_ (variables h v) /\ Constraint.left (constraints h c) ∉ vs) \/
  (exists c, c ∈ Var.out (variables h v) /\ Constraint.right (constraints h c) ∉ vs) ->
  constraintGraphIsCyclic h (length vs) vs = Some (Ok true) \/
  constraintGraphIsCyclic h (length vs) vs = Some Undefined.
Proof.
  intros Hnd [j Hj]%list_elem_of_lookup Hforeign. unfold constraintGraphIsCyclic.
  destruct (make_nodes_spec vs Hnd (length vs) 0 (mkState [] ∅ ∅))
    as (st & -> & Hg & Hn & Hm1 & Hm2); [lia|]. simpl in *.
  assert (Hm : forall v j, vs !! j = Some v -> at_ (varmap st) v = Some j).
  { intros w i Hw. unfold at_. rewrite (Hm1 w i); [done| |done].
    apply lookup_lt_Some in Hw. lia. }
  assert (Hnull : forall w, w ∉ vs -> at_ (varmap st) w = None).
  { intros w Hw. unfold at_. rewrite Hm2, lookup_empty; [done|].
    intros i _ Hi. apply Hw. by eapply list_elem_of_lookup_2. }
  destruct (fill_spec h vs (varmap st) (length vs) 0 (nodes st))
    as (ns & -> & Hin & _); [lia|done| |].
  { intros i Hi. rewrite Hn. by destruct (decide _). }
  simpl. rewrite Hg.
  destruct (remove_sources_cases (length (seq 0 (length vs))) (seq 0 (length vs)) ns)
    as [->|[->|[_ Hstuck]]]; [done|by right|by left|].
  destruct Hstuck. pose proof (lookup_lt_Some _ _ _ Hj) as Hlt.
  destruct (Hin j v) as (nd & Hnd' & Hfi & Hfo); [lia|done|].
  exists j, nd. split; [apply elem_of_seq; lia|]. split; [done|].
  destruct Hforeign as [(c & Hc & Hl)|(c & Hc & Hr)].
  - left. apply Hfi. exists c. split; [done|]. symmetry. by apply Hnull.
  - right. apply Hfo. exists c. split; [done|]. symmetry. by apply Hnull.
Qed.

End Returns.

(** ** [constraintGraphIsCyclic] on the graph of the constraints *)

Section CyclicResults.
Context {ops : BlockOps}.
Import stdpp.relations Cyclic.

(** For distinct variables [vs] whose [in] and [out] lists hold the
    constraints of [cs] that enter and leave them, all between variables
    of [vs]: [constraintGraphIsCyclic(vs.size(), vs)] returns, and it
    returns [true] exactly when the constraints of [cs] form a directed
    cycle. *)
Theorem constraintGraphIsCyclic_correct (h : Heap) (vs : list vptr) (cs : list cptr) :
  NoDup vs ->
  (forall v c, v ∈ vs ->
     c ∈ Var.in_ (variables h v) <-> c ∈ cs /\ Constraint.right (constraints h c) = v) ->
  (forall v c, v ∈ vs ->
     c ∈ Var.out (variables h v) <-> c ∈ cs /\ Constraint.left (constraints h c) = v) ->
  (forall c, c ∈ cs ->
     Constraint.left (constraints h c) ∈ vs /\ Constraint.right (constraints h c) ∈ vs) ->
  exists b, constraintGraphIsCyclic h (length vs) vs = Some (Ok b) /\
            (b = true <-> exists v, tc (constraint_edge h cs) v v).
Proof. apply cyclic_graph_spec. Qed.

(** The check the constructor of [Solver] leaves commented out,
    [constraintGraphIsCyclic(n, vs)] on the solver just built: when the
    variables of [vs] are distinct, every constraint of [cs] joins two of
    them, and the constructor of [Blocks] leaves the constraints and the
    [in] and [out] lists alone, it returns [true] exactly when the
    constraints of [cs] form a directed cycle. *)
Theorem constraintGraphIsCyclic_after_new (vs : list vptr) (cs : list cptr) (h : Heap) :
  NoDup vs ->
  (forall c, c ∈ cs ->
     Constraint.left (constraints h c) ∈ vs /\ Constraint.right (constraints h c) ∈ vs) ->
  (forall h' v, Var.in_ (variables (Blocks_new vs h') v) = Var.in_ (variables h' v) /\
                Var.out (variables (Blocks_new vs h') v) = Var.out (variables h' v)) ->
  (forall h', constraints (Blocks_new vs h') = constraints h') ->
  let sh := Solver.new vs cs h in
  exists b, constraintGraphIsCyclic sh.2 (Solver.n sh.1) (Solver.vs sh.1) = Some (Ok b) /\
            (b = true <-> exists v, tc (constraint_edge h cs) v v).
Proof.
  intros Hnd Hcl Hlists Hcons. simpl.
  set (h2 := foldl Solver.link (foldl Solver.clear_in_out h vs) cs).
  assert (Hc : constraints (Blocks_new vs h2) = constraints h).
  { rewrite Hcons. apply linked_constraints. }
  assert (He : constraint_edge (Blocks_new vs h2) cs = constraint_edge h cs).
  { unfold constraint_edge. by rewrite Hc. }
  rewrite <- He. subst h2. apply cyclic_graph_spec; [done| | |].
  - intros v c Hv. destruct (Hlists (foldl Solver.link (foldl Solver.clear_in_out h vs) cs) v) as [-> _].
    destruct (linked_lists vs cs h v Hv) as [-> _].
    by rewrite Hc, list_elem_of_filter, (comm and).
  - intros v c Hv. destruct (Hlists (foldl Solver.link (foldl Solver.clear_in_out h vs) cs) v) as [_ ->].
    destruct (linked_lists vs cs h v Hv) as [_ ->].
    by rewrite Hc, list_elem_of_filter, (comm and).
  - intros c Hin. rewrite Hc. by apply Hcl.
Qed.

End CyclicResults.

(** ** Runs on concrete heaps *)

(** The merge loop on one satisfied constraint, [x1 - x0 >= -1] with both
    variables at 0: it stops at the first turn. *)
Lemma satisfy_loop_exit_witness :
  let s := IncSolver.mk (Solver.mk 1 [0] 2 [0; 1]) 0 [0] in
  let h := Ex.apart (-1)%float in
  IncSolver.satisfy_loop (ops := Standin.ops false None) 1 s h = Some (Ok (s, h)) /\
  Forall (fun c => equality h c = false) (IncSolver.inactive s) /\
  (Forall (fun c => dlt (Standin.slack_spec h c) ZERO_UPPERBOUND = false)
          (IncSolver.inactive s) \/
   exists i c, first_least_slack (ops := Standin.ops false None) h (IncSolver.inactive s) i c /\
               active h c = true /\ dlt (Standin.slack_spec h c) ZERO_UPPERBOUND = true).
Proof.
  split; [reflexivity|].
  apply (satisfy_loop_exit (ops := Standin.ops false None) 1
           (IncSolver.mk (Solver.mk 1 [0] 2 [0; 1]) 0 [0]) (Ex.apart (-1)%float)).
  reflexivity.
Defined.

Lemma linked_cycle_lists (v : vptr) (c : cptr) :
  v ∈ [0; 1] ->
  (c ∈ Var.in_ (variables linked_cycle v) <->
   c ∈ [0; 1] /\ Constraint.right (constraints linked_cycle c) = v) /\
  (c ∈ Var.out (variables linked_cycle v) <->
   c ∈ [0; 1] /\ Constraint.left (constraints linked_cycle c) = v).
Proof.
  intros Hv. unfold linked_cycle. rewrite linked_constraints.
  destruct (linked_lists [0; 1] [0; 1] Ex.merged v Hv) as [-> ->].
  by rewrite !list_elem_of_filter, !(comm and (_ = v)).
Qed.

Lemma linked_cycle_closed (c : cptr) :
  c ∈ [0; 1] ->
  Constraint.left (constraints linked_cycle c) ∈ [0; 1] /\
  Constraint.right (constraints linked_cycle c) ∈ [0; 1].
Proof.
  unfold linked_cycle. rewrite linked_constraints.
  intros [->|[->|[]%elem_of_nil]%elem_of_cons]%elem_of_cons; simpl;
    split; repeat constructor.
Qed.

(** The constraints 0 and 1 of [linked_cycle], [x1 - x0 >= 1] and
    [x0 - x1 >= 1], form a cycle, and the check says so. *)
Lemma constraintGraphIsCyclic_correct_witness :
  Cyclic.constraintGraphIsCyclic linked_cycle 2 [0; 1] = Some (Ok true) /\
  exists b, Cyclic.constraintGraphIsCyclic linked_cycle (length [0; 1]) [0; 1] = Some (Ok b) /\
            (b = true <-> exists v, relations.tc (constraint_edge linked_cycle [0; 1]) v v).
Proof.
  split; [by vm_compute|].
  apply (constraintGraphIsCyclic_correct linked_cycle [0; 1] [0; 1]).
  - apply NoDup_cons_2; [by intros [?|[]%elem_of_nil]%elem_of_cons|].
    apply NoDup_singleton.
  - intros v c Hv. apply (linked_cycle_lists v c Hv).
  - intros v c Hv. apply (linked_cycle_lists v c Hv).
  - apply linked_cycle_closed.
Defined.

(** With [vs] cut down to the variable 1, the constraint 0 of its [in]
    list comes from outside [vs]. *)
Lemma constraintGraphIsCyclic_foreign_witness :
  Cyclic.constraintGraphIsCyclic linked_cycle (length [1]) [1] = Some (Ok true) \/
  Cyclic.constraintGraphIsCyclic linked_cycle (length [1]) [1] = Some Undefined.
Proof.
  apply (constraintGraphIsCyclic_foreign linked_cycle [1] 1).
  - apply NoDup_singleton.
  - by left.
  - left. exists 0. split; [by left|]. by intros [?|[]%elem_of_nil]%elem_of_cons.
Defined.

Lemma Standin_singleton_fold (l : list vptr) : forall h,
  constraints (foldl Standin.singleton h l) = constraints h /\
  forall v, Var.in_ (variables (foldl Standin.singleton h l) v) = Var.in_ (variables h v) /\
            Var.out (variables (foldl Standin.singleton h l) v) = Var.out (variables h v).
Proof.
  induction l as [|w l IH]; intros h; simpl; [done|].
  destruct (IH (Standin.singleton h w)) as [-> Hv]. split; [done|].
  intros v. destruct (Hv v) as [-> ->]. unfold Standin.singleton. simpl.
  destruct (decide (w = v)) as [->|Hne].
  - by rewrite fn_lookup_insert.
  - by rewrite fn_lookup_insert_ne.
Qed.

(** The constructor on [Ex.merged] with both constraints, then the
    check. *)
Lemma constraintGraphIsCyclic_after_new_witness :
  let sh := Solver.new (ops := Standin.ops false None) [0; 1] [0; 1] Ex.merged in
  exists b, Cyclic.constraintGraphIsCyclic sh.2 (Solver.n sh.1) (Solver.vs sh.1) = Some (Ok b) /\
            (b = true <-> exists v, relations.tc (constraint_edge Ex.merged [0; 1]) v v).
Proof.
  apply (constraintGraphIsCyclic_after_new (ops := Standin.ops false None)
           [0; 1] [0; 1] Ex.merged).
  - apply NoDup_cons_2; [by intros [?|[]%elem_of_nil]%elem_of_cons|].
    apply NoDup_singleton.
  - intros c [->|[->|[]%elem_of_nil]%elem_of_cons]%elem_of_cons; simpl;
      split; repeat constructor.
  - intros h' v.
    exact (proj2 (Standin_singleton_fold [0; 1]
                    (mkHeap (variables h') (constraints h') (blocks h') [])) v).
  - intros h'.
    exact (proj1 (Standin_singleton_fold [0; 1]
                    (mkHeap (variables h') (constraints h') (blocks h') []))).
Defined.

(** ** The cost loop of [IncSolver::solve] *)

Lemma is_nan_true x : is_nan x = true -> Prim2SF x = S754_nan.
Proof.
  intros H. destruct (Prim2SF x) eqn:E; [| |done|];
    (assert (is_nan x = false) as E'; [apply is_nan_false; by rewrite E|congruence]).
Qed.


Section CostLoop.
Context {ops : BlockOps}.
Import IncSolver.

Implicit Types (s : IncSolver.t) (h : Heap).





End CostLoop.

(** ** The loop that removes the sources *)

Section LoopCorrect.
Import stdpp.gmap stdpp.relations Cyclic.

(** The [while] loop of [constraintGraphIsCyclic], which is also that of
    [blockGraphIsCyclic]: started on nodes whose [in] and [out] sets are
    those of a directed graph on the nodes of [graph], it ends within
    [graph.size()] turns, and returns [true] exactly when that graph has a
    cycle. *)
Theorem remove_sources_correct (R : relation nat) (g : list nat) (ns : gmap nat node) :
  graph_inv R g ns ->
  exists b, remove_sources (length g) g ns = Some (Ok b) /\
            (b = true <-> exists x, tc R x x).
Proof. intros Hinv. by apply (remove_sources_spec R). Qed.

Lemma path_graph_inv : graph_inv (fun i j => i = 0 /\ j = 1) path_graph.1 path_graph.2.
Proof.
  split; simpl.
  - apply NoDup_cons_2; [by intros [?|[]%elem_of_nil]%elem_of_cons|].
    apply NoDup_singleton.
  - intros i. rewrite !elem_of_cons, elem_of_nil, !lookup_insert_is_Some', lookup_empty.
    split; [intros [->|[->|[]]]; tauto|].
    intros [->|[->|[? [=]]]]; tauto.
  - intros [|[|i]] nd p; [rewrite lookup_insert_eq|
      rewrite lookup_insert_ne, lookup_insert_eq by done|
      rewrite !lookup_insert_ne, lookup_empty by done]; intros [= <-]; simpl.
    + split; [by intros ?%not_elem_of_empty|by intros (j & _ & _ & _ & ?)].
    + rewrite elem_of_singleton. split.
      * intros ->. exists 0. split; [done|]. split; [by right; left|done].
      * by intros (j & -> & _ & -> & _).
  - intros [|[|i]] nd p; [rewrite lookup_insert_eq|
      rewrite lookup_insert_ne, lookup_insert_eq by done|
      rewrite !lookup_insert_ne, lookup_empty by done]; intros [= <-]; simpl.
    + rewrite elem_of_singleton. split.
      * intros ->. by exists 1.
      * by intros (j & -> & _ & ->).
    + split; [by intros ?%not_elem_of_empty|by intros (j & _ & ? & _)].
  - intros i j _ [_ ->]. by left.
  - by intros x (p & [-> ->] & (q & [_ [=]] & _)%tc_cycle_pred)%tc_cycle_pred.
Qed.

End LoopCorrect.

Lemma remove_sources_correct_witness :
  Cyclic.remove_sources 2 path_graph.1 path_graph.2 = Some (Ok false) /\
  exists b, Cyclic.remove_sources (length path_graph.1) path_graph.1 path_graph.2
            = Some (Ok b) /\
            (b = true <-> exists x, relations.tc (fun i j => i = 0 /\ j = 1) x x).
Proof.
  split; [by vm_compute|].
  apply (remove_sources_correct (fun i j => i = 0 /\ j = 1)), path_graph_inv.
Defined.



(** * libcola: the bounds of clusters *)

(** ** Comparisons with a NaN *)

Lemma dlt_asym a b : dlt a b = true -> dlt b a = false.
Proof.
  intros H. destruct (dlt b a) eqn:E; [|done].
  pose proof (dlt_trans _ _ _ H E) as Hn. by rewrite dlt_irrefl in Hn.
Qed.

Lemma dlt_nan_l a b : is_nan a = true -> dlt a b = false.
Proof. intros E%is_nan_true. unfold dlt. by rewrite ltb_spec, E. Qed.

Lemma dlt_nan_r a b : is_nan b = true -> dlt a b = false.
Proof.
  intros E%is_nan_true. unfold dlt. rewrite ltb_spec, E. by destruct (Prim2SF a).
Qed.

Lemma dlt_is_nan_l a b : dlt a b = true -> is_nan a = false.
Proof.
  intros H. destruct (is_nan a) eqn:E; [|done]. by rewrite (dlt_nan_l a b E) in H.
Qed.

Lemma dlt_cotrans_nn a b z :
  dlt a z = true -> is_nan b = false -> dlt a b = true \/ dlt b z = true.
Proof.
  unfold dlt. rewrite !ltb_spec. intros Haz Hb%is_nan_false.
  apply orb_true_iff, SF_lt_cotrans; [done|apply SF_lt_irrefl|done].
Qed.

(** ** The four accumulations *)

(** [acc = std::min(acc, v)]: a NaN [v] is passed over. *)
Lemma min_acc_spec acc v :
  (is_nan acc = false -> is_nan (std_min acc v) = false) /\
  dlt v (std_min acc v) = false /\
  (forall x, dlt x acc = false -> dlt x (std_min acc v) = false) /\
  (std_min acc v = acc \/ std_min acc v = v).
Proof.
  unfold std_min. destruct (dlt v acc) eqn:E.
  - split; [intros _; by eapply dlt_is_nan_l|]. split; [apply dlt_irrefl|].
    split; [|by right]. intros x Hx. destruct (dlt x v) eqn:Hxv; [|done].
    by rewrite (dlt_trans _ _ _ Hxv E) in Hx.
  - split; [done|]. split; [done|]. split; [done|by left].
Qed.

(** [acc = std::max(acc, v)]. *)
Lemma max_acc_spec acc v :
  (is_nan acc = false -> is_nan (std_max acc v) = false) /\
  dlt (std_max acc v) v = false /\
  (forall x, dlt acc x = false -> dlt (std_max acc v) x = false) /\
  (std_max acc v = acc \/ std_max acc v = v).
Proof.
  unfold std_max. destruct (dlt acc v) eqn:E.
  - split.
    { intros _. destruct (is_nan v) eqn:Hv; [|done]. by rewrite (dlt_nan_r acc v Hv) in E. }
    split; [apply dlt_irrefl|]. split; [|by right].
    intros x Hx. destruct (dlt v x) eqn:Hvx; [|done].
    by rewrite (dlt_trans _ _ _ E Hvx) in Hx.
  - split; [done|]. split; [done|]. split; [done|by left].
Qed.

(** [acc = min(v, acc)]: right when neither is a NaN. *)
Lemma min_val_spec acc v :
  is_nan acc = false -> is_nan v = false ->
  is_nan (std_min v acc) = false /\
  dlt v (std_min v acc) = false /\
  (forall x, dlt x acc = false -> dlt x (std_min v acc) = false) /\
  (std_min v acc = acc \/ std_min v acc = v).
Proof.
  intros Ha Hv. unfold std_min. destruct (dlt acc v) eqn:E.
  - split; [done|]. split; [by apply dlt_asym|]. split; [done|by left].
  - split; [done|]. split; [apply dlt_irrefl|]. split; [|by right].
    intros x Hx. destruct (dlt x v) eqn:Hxv; [|done].
    destruct (dlt_cotrans_nn _ acc _ Hxv Ha); congruence.
Qed.

(** [acc = max(v, acc)]. *)
Lemma max_val_spec acc v :
  is_nan acc = false -> is_nan v = false ->
  is_nan (std_max v acc) = false /\
  dlt (std_max v acc) v = false /\
  (forall x, dlt acc x = false -> dlt (std_max v acc) x = false) /\
  (std_max v acc = acc \/ std_max v acc = v).
Proof.
  intros Ha Hv. unfold std_max. destruct (dlt v acc) eqn:E.
  - split; [done|]. split; [by apply dlt_asym|]. split; [done|by left].
  - split; [done|]. split; [apply dlt_irrefl|]. split; [|by right].
    intros x Hx. destruct (dlt v x) eqn:Hvx; [|done].
    destruct (dlt_cotrans_nn _ acc _ Hvx Ha); congruence.
Qed.

(** [min(v, acc)] and [max(v, acc)] with a NaN [v] are [v], whatever
    [acc] holds. *)
Lemma min_val_nan acc v : is_nan v = true -> std_min v acc = v.
Proof. intros H. unfold std_min. by rewrite (dlt_nan_r acc v H). Qed.

Lemma max_val_nan acc v : is_nan v = true -> std_max v acc = v.
Proof. intros H. unfold std_max. by rewrite (dlt_nan_l v acc H). Qed.

(** ** The boxes *)

Section Boxes.
Context {ops : RectangleOps}.
Import Cluster RectangularCluster.

Implicit Types (b : box) (r : Rectangle) (rs seen : list Rectangle) (l : list nat).

Lemma bounding_empty : bounding empty_box [].
Proof.
  split; [by repeat split|]. split; [by intros r ?%elem_of_nil|].
  repeat split; by left.
Qed.

Lemma attained_side (m m' v : double) (d : double) seen r0 (get : Rectangle -> double) :
  v = get r0 ->
  (m = d \/ exists r, r ∈ seen /\ m = get r) -> (m' = m \/ m' = v) ->
  m' = d \/ exists r, r ∈ seen ++ [r0] /\ m' = get r.
Proof.
  intros -> [-> |(r & Hr & ->)] [-> | ->].
  - by left.
  - right. exists r0. split; [|done]. apply elem_of_app. right. by left.
  - right. exists r. split; [|done]. apply elem_of_app. by left.
  - right. exists r0. split; [|done]. apply elem_of_app. right. by left.
Qed.

(** A turn of the loop of [computeBoundary]. *)
Lemma widen_bounding b seen r0 :
  bounding b seen -> bounding (widen b r0) (seen ++ [r0]).
Proof.
  intros ((N1 & N2 & N3 & N4) & Har & (A1 & A2 & A3 & A4)).
  destruct (min_acc_spec (minX b) (getMinX r0)) as (Ha1 & Hb1 & Hc1 & Hd1).
  destruct (max_acc_spec (maxX b) (getMaxX r0)) as (Ha2 & Hb2 & Hc2 & Hd2).
  destruct (min_acc_spec (minY b) (getMinY r0)) as (Ha3 & Hb3 & Hc3 & Hd3).
  destruct (max_acc_spec (maxY b) (getMaxY r0)) as (Ha4 & Hb4 & Hc4 & Hd4).
  split; [|split].
  - split; [by apply Ha1|]. split; [by apply Ha2|]. split; [by apply Ha3|by apply Ha4].
  - intros r [Hr| ->%list_elem_of_singleton]%elem_of_app; [|by repeat split].
    destruct (Har r Hr) as (R1 & R2 & R3 & R4).
    split; [by apply Hc1|]. split; [by apply Hc2|]. split; [by apply Hc3|by apply Hc4].
  - split; [by eapply attained_side|]. split; [by eapply attained_side|].
    split; by eapply attained_side.
Qed.

(** A turn of the loops of [computeBoundingRect], on a rectangle without
    NaN. *)
Lemma take_bounding b seen r0 :
  no_nan r0 -> bounding b seen -> bounding (take b r0) (seen ++ [r0]).
Proof.
  intros (V1 & V2 & V3 & V4) ((N1 & N2 & N3 & N4) & Har & (A1 & A2 & A3 & A4)).
  destruct (min_val_spec (minX b) (getMinX r0) N1 V1) as (Ha1 & Hb1 & Hc1 & Hd1).
  destruct (max_val_spec (maxX b) (getMaxX r0) N2 V2) as (Ha2 & Hb2 & Hc2 & Hd2).
  destruct (min_val_spec (minY b) (getMinY r0) N3 V3) as (Ha3 & Hb3 & Hc3 & Hd3).
  destruct (max_val_spec (maxY b) (getMaxY r0) N4 V4) as (Ha4 & Hb4 & Hc4 & Hd4).
  split; [|split].
  - by repeat split.
  - intros r [Hr| ->%list_elem_of_singleton]%elem_of_app; [|by repeat split].
    destruct (Har r Hr) as (R1 & R2 & R3 & R4).
    split; [by apply Hc1|]. split; [by apply Hc2|]. split; [by apply Hc3|by apply Hc4].
  - split; [by eapply attained_side|]. split; [by eapply attained_side|].
    split; by eapply attained_side.
Qed.

Lemma widen_fold rs : forall b seen,
  bounding b seen -> bounding (foldl widen b rs) (seen ++ rs).
Proof.
  induction rs as [|r rs IH]; intros b seen Hb; simpl; [by rewrite app_nil_r|].
  rewrite (assoc_L (++) seen [r] rs : seen ++ r :: rs = (seen ++ [r]) ++ rs).
  by apply IH, widen_bounding.
Qed.

Lemma take_fold rs : forall b seen,
  Forall no_nan rs -> bounding b seen -> bounding (foldl take b rs) (seen ++ rs).
Proof.
  induction rs as [|r rs IH]; intros b seen Hn Hb; simpl; [by rewrite app_nil_r|].
  inversion Hn as [|? ? Hr Hrs]; subst.
  rewrite (assoc_L (++) seen [r] rs : seen ++ r :: rs = (seen ++ [r]) ++ rs).
  by apply IH, take_bounding.
Qed.

(** The loop over the nodes reads the rectangles of the nodes in turn. *)
Lemma nodes_fold (f : box -> Rectangle -> box) rs l : forall b,
  Forall (fun i => i < length rs) l ->
  foldM (fun b i => r ← deref (rs !! i); mret (f b r)) b l
  = Ok (foldl f b (omap (fun i => rs !! i) l)).
Proof.
  induction l as [|i l IH]; intros b Hl; simpl; [done|].
  inversion Hl as [|? ? Hi Hl']; subst.
  destruct (lookup_lt_is_Some_2 rs i Hi) as [r Hr]. rewrite Hr. simpl.
  by apply IH.
Qed.

End Boxes.

(** ** [RectangularCluster::computeBoundary] and [Cluster::computeBoundingRect] *)

Section Bounds.
Context {ops : RectangleOps}.
Import Cluster RectangularCluster.

Implicit Types (b : box) (r : Rectangle) (rs : list Rectangle) (l : list nat)
  (c : Cluster.t) (cs : list Cluster.t).

(** [RectangularCluster::computeBoundary], when every node is an index of
    [rs]: the hull is the rectangle [xMin, xMax] x [yMin, yMax], listed
    from the corner [(xMax, yMin)]; no side is a NaN, even when
    rectangles have NaN sides; no rectangle of a node has a side beyond
    it; and each side is that of some node's rectangle, or still the
    initial [DBL_MAX] or [-DBL_MAX]. *)
Theorem RectangularCluster_computeBoundary_spec rs l :
  Forall (fun i => i < length rs) l ->
  exists b,
    computeBoundary rs l
    = Ok ([maxX b; maxX b; minX b; minX b], [minY b; maxY b; maxY b; minY b]) /\
    bounding b (omap (fun i => rs !! i) l).
Proof.
  intros Hl. exists (foldl widen empty_box (omap (fun i => rs !! i) l)).
  unfold computeBoundary. rewrite (nodes_fold widen rs l empty_box Hl). split; [done|].
  apply (widen_fold _ empty_box []), bounding_empty.
Qed.

Lemma in_range_eq rs l cs r0 :
  in_range rs (Cluster.mk l cs r0) <->
  Forall (fun i => i < length rs) l /\ Forall (in_range rs) cs.
Proof.
  simpl. apply and_iff_compat_l. induction cs as [|c cs IH]; simpl.
  - split; [constructor|done].
  - rewrite IH. split.
    + intros [Hc Hcs]. by constructor.
    + intros H. inversion H; subst. done.
Qed.

Lemma over_clusters_spec (f : Cluster.t -> outcome Cluster.t) cs : forall b,
  Forall (fun c => exists c', f c = Ok c') cs ->
  exists cs', over_clusters f cs b = Ok (cs', foldl take b (bounds <$> cs')) /\
              Forall2 (fun c c' => f c = Ok c') cs cs'.
Proof.
  induction cs as [|c cs IH]; intros b Hcs; simpl.
  - exists []. split; [done|constructor].
  - inversion Hcs as [|? ? [c' Hc] Hcs']; subst. rewrite Hc. simpl.
    destruct (IH (take b (bounds c')) Hcs') as (cs' & -> & Hall). simpl.
    exists (c' :: cs'). split; [done|]. by constructor.
Qed.

Lemma computeBoundingRect_eq rs l cs r0 :
  Forall (fun i => i < length rs) l ->
  Forall (fun c => exists c', computeBoundingRect rs c = Ok c') cs ->
  exists cs',
    Forall2 (fun k k' => computeBoundingRect rs k = Ok k') cs cs' /\
    computeBoundingRect rs (Cluster.mk l cs r0)
    = Ok (Cluster.mk l cs'
            (new_Rectangle (minX (bounding_box rs l cs')) (maxX (bounding_box rs l cs'))
                           (minY (bounding_box rs l cs')) (maxY (bounding_box rs l cs')))).
Proof.
  intros Hl Hcs.
  destruct (over_clusters_spec (computeBoundingRect rs) cs empty_box Hcs)
    as (cs' & Hover & Hall).
  exists cs'. split; [done|]. simpl. rewrite Hover. simpl.
  unfold over_nodes. rewrite (nodes_fold take rs l _ Hl). simpl.
  unfold bounding_box. by rewrite foldl_app.
Qed.

Lemma computeBoundingRect_returns rs c :
  in_range rs c -> exists c', computeBoundingRect rs c = Ok c'.
Proof.
  induction c as [l cs r0 IH] using Cluster.tree_ind.
  intros [Hl Hcs]%in_range_eq.
  destruct (computeBoundingRect_eq rs l cs r0 Hl) as (cs' & _ & ->); [|by eexists].
  apply Forall_lookup. intros i c Hi.
  apply (Forall_lookup_1 _ _ _ _ IH Hi), (Forall_lookup_1 _ _ _ _ Hcs Hi).
Qed.

(** [Cluster::computeBoundingRect] on a tree of clusters whose node
    indices are all indices of [rs]: the call returns; the nodes are
    untouched and every child cluster is as its own call leaves it; the
    new bounds are [Rectangle(minX, maxX, minY, maxY)] for a box which,
    when none of the rectangles read (the bounds of the children, then
    the rectangles of the nodes) has a NaN side, has no NaN side, leaves
    no side of those rectangles outside, and has each side from one of
    them or still at the initial [DBL_MAX] or [-DBL_MAX]. *)
Theorem Cluster_computeBoundingRect_spec rs c :
  in_range rs c ->
  exists c' b,
    computeBoundingRect rs c = Ok c' /\
    nodes c' = nodes c /\
    Forall2 (fun k k' => computeBoundingRect rs k = Ok k') (clusters c) (clusters c') /\
    bounds c' = new_Rectangle (minX b) (maxX b) (minY b) (maxY b) /\
    let read := (bounds <$> clusters c') ++ omap (fun i => rs !! i) (nodes c) in
    Forall no_nan read -> bounding b read.
Proof.
  destruct c as [l cs r0]. intros [Hl Hcs]%in_range_eq.
  destruct (computeBoundingRect_eq rs l cs r0 Hl) as (cs' & Hall & Heq).
  { apply Forall_lookup. intros i c Hi.
    apply computeBoundingRect_returns, (Forall_lookup_1 _ _ _ _ Hcs Hi). }
  eexists _, (bounding_box rs l cs'). split; [exact Heq|]. simpl.
  do 3 (split; [done|]). intros Hn.
  by apply (take_fold _ empty_box [] Hn), bounding_empty.
Qed.

Lemma take_nan b r :
  is_nan (getMinX r) = true -> is_nan (getMaxX r) = true ->
  is_nan (getMinY r) = true -> is_nan (getMaxY r) = true ->
  take b r = mkBox (getMinX r) (getMaxX r) (getMinY r) (getMaxY r).
Proof.
  intros H1 H2 H3 H4. unfold take.
  by rewrite !min_val_nan, !max_val_nan.
Qed.

(** A rectangle whose four sides are NaN makes [computeBoundingRect]
    forget what it has read: the bounds come out as if the cluster had no
    child cluster and no node before that rectangle's. *)
Theorem Cluster_computeBoundingRect_nan rs (pre post : list nat) (i : nat) cs r0 r :
  in_range rs (Cluster.mk (pre ++ i :: post) cs r0) ->
  rs !! i = Some r ->
  is_nan (getMinX r) = true -> is_nan (getMaxX r) = true ->
  is_nan (getMinY r) = true -> is_nan (getMaxY r) = true ->
  exists c1 c2,
    computeBoundingRect rs (Cluster.mk (pre ++ i :: post) cs r0) = Ok c1 /\
    computeBoundingRect rs (Cluster.mk (i :: post) [] r0) = Ok c2 /\
    bounds c1 = bounds c2.
Proof.
  intros [Hl Hcs]%in_range_eq Hr H1 H2 H3 H4.
  destruct (computeBoundingRect_eq rs (pre ++ i :: post) cs r0 Hl) as (cs' & _ & ->).
  { apply Forall_lookup. intros j c Hj.
    apply computeBoundingRect_returns, (Forall_lookup_1 _ _ _ _ Hcs Hj). }
  apply Forall_app in Hl as [_ Hl].
  destruct (computeBoundingRect_eq rs (i :: post) [] r0) as (cs2 & Hall & ->);
    [done|constructor|].
  inversion Hall; subst.
  eexists _, _. split; [done|]. split; [done|]. simpl.
  assert (E : bounding_box rs (pre ++ i :: post) cs' = bounding_box rs (i :: post) []).
  { unfold bounding_box. rewrite omap_app. simpl. rewrite Hr. simpl.
    rewrite !foldl_app. simpl. by rewrite !take_nan. }
  by rewrite E.
Qed.

End Bounds.

(** ** [ConvexCluster::computeBoundary] *)

Section Convex.
Context {ops : RectangleOps}.
Context (convex : list double -> list double -> list nat).
Import ConvexCluster.

Implicit Types (r : Rectangle) (rs : list Rectangle) (l : list nat) (st : corners).

Lemma store_at (pre mid : list double) (i k : nat) (v : double) :
  i = length pre + k -> k < length mid ->
  store (pre ++ mid) i v = Ok (pre ++ <[k := v]> mid).
Proof.
  intros -> Hk. unfold store. rewrite decide_True by (rewrite length_app; lia).
  by rewrite insert_app_r.
Qed.

Lemma push_corners_spec (px py : list double) (m : nat) r :
  length px = length py ->
  push_corners (mkCorners (px ++ replicate (4 + m) 0%float) (py ++ replicate (4 + m) 0%float)
                          (length px)) r
  = Ok (mkCorners ((px ++ [getMaxX r; getMaxX r; getMinX r; getMinX r]) ++ replicate m 0%float)
                  ((py ++ [getMinY r; getMaxY r; getMaxY r; getMinY r]) ++ replicate m 0%float)
                  (length px + 4)).
Proof.
  intros Hlen. unfold push_corners. cbn [X Y pctr replicate Nat.add].
  rewrite (store_at px _ (length px) 0) by (simpl; lia). cbn -[store replicate].
  rewrite (store_at py _ (length px) 0) by (simpl; lia). cbn -[store replicate].
  rewrite (store_at px _ (length px + 1) 1) by (simpl; lia). cbn -[store replicate].
  rewrite (store_at py _ (length px + 1) 1) by (simpl; lia). cbn -[store replicate].
  rewrite (store_at px _ (length px + 2) 2) by (simpl; lia). cbn -[store replicate].
  rewrite (store_at py _ (length px + 2) 2) by (simpl; lia). cbn -[store replicate].
  rewrite (store_at px _ (length px + 3) 3) by (simpl; lia). cbn -[store replicate].
  rewrite (store_at py _ (length px + 3) 3) by (simpl; lia). cbn -[store replicate].
  unfold mret, outcome_ret. by rewrite <- !app_assoc.
Qed.

Lemma corners_loop rs l : forall (px py : list double),
  Forall (fun i => i < length rs) l -> length px = length py ->
  foldM (fun st i => r ← deref (rs !! i); push_corners st r)
        (mkCorners (px ++ replicate (4 * length l) 0%float)
                   (py ++ replicate (4 * length l) 0%float) (length px)) l
  = Ok (mkCorners (px ++ corners_x (omap (fun i => rs !! i) l))
                  (py ++ corners_y (omap (fun i => rs !! i) l))
                  (length px + 4 * length l)).
Proof.
  induction l as [|i l IH]; intros px py Hl Hlen.
  - simpl. unfold mret, outcome_ret. by rewrite !app_nil_r, Nat.add_0_r.
  - inversion Hl as [|? ? Hi Hl']; subst.
    destruct (lookup_lt_is_Some_2 rs i Hi) as [r Hr].
    assert (Ho : omap (fun i => rs !! i) (i :: l) = r :: omap (fun i => rs !! i) l)
      by (simpl; by rewrite Hr).
    rewrite Ho. clear Ho.
    replace (4 * length (i :: l)) with (4 + 4 * length l) by (simpl; lia).
    cbn [foldM]. rewrite Hr. cbn [deref mbind outcome_bind].
    rewrite (push_corners_spec px py (4 * length l) r Hlen). cbn [mbind outcome_bind].
    replace (length px + 4)
      with (length (px ++ [getMaxX r; getMaxX r; getMinX r; getMinX r]))
      by (rewrite length_app; simpl; lia).
    rewrite IH; [|done|rewrite !length_app; simpl; lia].
    f_equal. rewrite length_app. unfold corners_x, corners_y. simpl.
    rewrite <- !app_assoc. f_equal. lia.
Qed.

(** The point [k] is the corner [k % 4] of the rectangle [k / 4]. *)
Lemma corners_lookup (l : list Rectangle) : forall k r,
  l !! (k / 4) = Some r ->
  corners_x l !! k = Some (corner_x (k mod 4) r) /\
  corners_y l !! k = Some (corner_y (k mod 4) r).
Proof.
  induction l as [|r0 l IH]; intros k r Hk; [done|].
  destruct (decide (k < 4)) as [Hlt|Hge].
  - rewrite Nat.div_small in Hk by done. injection Hk as ->.
    rewrite Nat.mod_small by done.
    by destruct k as [|[|[|[|k]]]]; [..|lia].
  - destruct (Nat.le_exists_sub 4 k) as (k' & -> & _); [lia|].
    change (k' + 4) with (k' + 1 * 4) in *.
    rewrite Nat.div_add in Hk by done. rewrite Nat.Div0.mod_add.
    replace (k' / 4 + 1) with (S (k' / 4)) in Hk by lia. simpl in Hk.
    destruct (IH k' r Hk) as [Hx Hy].
    change (corners_x (r0 :: l))
      with ([getMaxX r0; getMaxX r0; getMinX r0; getMinX r0] ++ corners_x l).
    change (corners_y (r0 :: l))
      with ([getMinY r0; getMaxY r0; getMaxY r0; getMinY r0] ++ corners_y l).
    rewrite !lookup_app_r by (simpl; lia). simpl length.
    replace (k' + 1 * 4 - 4) with k' by lia. done.
Qed.

Lemma hull_loop st (l : list Rectangle) (hull : list nat) : forall acc,
  X st = corners_x l -> Y st = corners_y l ->
  Forall (fun k => k < 4 * length l) hull ->
  exists pts,
    foldM (fun acc k => p ← hull_point st k; mret (acc ++ [p])) acc hull = Ok (acc ++ pts) /\
    Forall2 (fun k p => exists r, l !! (k / 4) = Some r /\
                        p = (corner_x (k mod 4) r, corner_y (k mod 4) r, k / 4, k mod 4))
            hull pts.
Proof.
  intros acc HX HY. revert acc.
  induction hull as [|k hull IH]; intros acc Hh; simpl.
  - exists []. split; [by rewrite app_nil_r|constructor].
  - inversion Hh as [|? ? Hk Hh']; subst.
    destruct (lookup_lt_is_Some_2 l (k / 4)) as [r Hr].
    { apply Nat.Div0.div_lt_upper_bound. lia. }
    destruct (corners_lookup l k r Hr) as [Hx Hy].
    assert (Hp : hull_point st k
                 = Ok (corner_x (k mod 4) r, corner_y (k mod 4) r, k / 4, k mod 4)).
    { unfold hull_point. by rewrite HX, HY, Hx, Hy. }
    rewrite Hp. cbn [mbind outcome_bind mret outcome_ret].
    destruct (IH (acc ++ [(corner_x (k mod 4) r, corner_y (k mod 4) r, k / 4, k mod 4)]) Hh')
      as (pts & -> & Hpts).
    eexists (_ :: pts). split; [by rewrite <- app_assoc|].
    constructor; [by exists r|done].
Qed.

Lemma omap_lookup_in_range rs l (j : nat) r :
  Forall (fun i => i < length rs) l ->
  omap (fun i => rs !! i) l !! j = Some r ->
  exists i, l !! j = Some i /\ rs !! i = Some r.
Proof.
  revert j. induction l as [|i l IH]; intros j Hl Hj; [done|].
  inversion Hl as [|? ? Hi Hl']; subst.
  destruct (lookup_lt_is_Some_2 rs i Hi) as [r0 Hr0].
  simpl in Hj. rewrite Hr0 in Hj. simpl in Hj. destruct j as [|j]; simpl in *.
  - exists i. split; [done|congruence].
  - by apply IH.
Qed.

(** [ConvexCluster::computeBoundary], when every node is an index of
    [rs], [4*nodes.size()] fits an [unsigned], and [hull::convex], given
    the corners of the rectangles of the nodes, returns indices of
    corners: the call returns, the arrays have one entry for each index
    [k] of the hull, and that entry holds the coordinates of the corner
    [hullCorners[j] = k % 4] of the rectangle of the node [hullRIDs[j] =
    k / 4] (corner 0 is bottom right, 1 top right, 2 top left, 3 bottom
    left). *)
Theorem ConvexCluster_computeBoundary_spec rs l :
  let rects := omap (fun i => rs !! i) l in
  Forall (fun i => i < length rs) l ->
  (4 * Z.of_nat (length l) < 2 ^ 32)%Z ->
  Forall (fun k => k < 4 * length l) (convex (corners_x rects) (corners_y rects)) ->
  exists pts,
    ConvexCluster.computeBoundary convex rs l = Ok pts /\
    Forall2 (fun k p => exists i r, l !! (k / 4) = Some i /\ rs !! i = Some r /\
                        p = (corner_x (k mod 4) r, corner_y (k mod 4) r, k / 4, k mod 4))
            (convex (corners_x rects) (corners_y rects)) pts.
Proof.
  intros rects Hl Hn Hhull. unfold ConvexCluster.computeBoundary.
  rewrite Z.mod_small by lia.
  replace (Z.to_nat (4 * Z.of_nat (length l))) with (4 * length l) by lia.
  pose proof (corners_loop rs l [] [] Hl eq_refl) as Hloop.
  cbn [app length] in Hloop. rewrite Hloop. cbn [mbind outcome_bind X Y].
  fold rects.
  assert (Hlen : length rects = length l).
  { clear -Hl. subst rects. induction l as [|i l IH]; [done|].
    inversion Hl as [|? ? Hi Hl']; subst.
    destruct (lookup_lt_is_Some_2 rs i Hi) as [r Hr]. simpl.
    rewrite Hr. simpl. f_equal. by apply IH. }
  destruct (hull_loop (mkCorners (corners_x rects) (corners_y rects) (0 + 4 * length l))
              rects (convex (corners_x rects) (corners_y rects)) [] eq_refl eq_refl)
    as (pts & Hrun & Hpts); [by rewrite Hlen|].
  exists pts. split; [exact Hrun|].
  clear Hrun Hhull. induction Hpts as [|k p ks ps (r & Hr & ->) _ IH]; constructor; [|done].
  destruct (omap_lookup_in_range rs l _ r Hl Hr) as (i & Hi & Hri).
  by exists i, r.
Qed.

End Convex.

(** ** Runs on concrete rectangles *)

Lemma RectangularCluster_computeBoundary_spec_witness :
  RectangularCluster.computeBoundary (ops := sides) three_rectangles [0; 1]
  = Ok ([3; 3; 0; 0], [-1; 4; 4; -1])%float /\
  exists b,
    RectangularCluster.computeBoundary (ops := sides) three_rectangles [0; 1]
    = Ok ([Cluster.maxX b; Cluster.maxX b;
           Cluster.minX b; Cluster.minX b],
          [Cluster.minY b; Cluster.maxY b;
           Cluster.maxY b; Cluster.minY b]) /\
    Cluster.bounding (ops := sides) b (omap (fun i => three_rectangles !! i) [0; 1]).
Proof.
  split; [reflexivity|].
  apply (RectangularCluster_computeBoundary_spec (ops := sides) three_rectangles [0; 1]).
  repeat (constructor; [simpl; lia|]). constructor.
Defined.

Lemma Cluster_computeBoundingRect_spec_witness :
  exists c' b,
    Cluster.computeBoundingRect (ops := sides) three_rectangles two_clusters = Ok c' /\
    Cluster.nodes c' = Cluster.nodes two_clusters /\
    Forall2 (fun k k' => Cluster.computeBoundingRect (ops := sides) three_rectangles k = Ok k')
            (Cluster.clusters two_clusters) (Cluster.clusters c') /\
    Cluster.bounds c'
    = new_Rectangle (Cluster.minX b) (Cluster.maxX b)
                    (Cluster.minY b) (Cluster.maxY b) /\
    let read := (Cluster.bounds <$> Cluster.clusters c') ++
                omap (fun i => three_rectangles !! i) (Cluster.nodes two_clusters) in
    Forall (Cluster.no_nan (ops := sides)) read -> Cluster.bounding (ops := sides) b read.
Proof.
  apply (Cluster_computeBoundingRect_spec (ops := sides) three_rectangles two_clusters).
  simpl. repeat split; repeat (constructor; [simpl; lia|]); constructor.
Defined.

Lemma Cluster_computeBoundingRect_nan_witness :
  exists c1 c2,
    Cluster.computeBoundingRect (ops := sides) three_rectangles
      (Cluster.mk (ops := sides) ([0; 1] ++ 2 :: []) [] (0, 0, 0, 0)%float)
    = Ok c1 /\
    Cluster.computeBoundingRect (ops := sides) three_rectangles
      (Cluster.mk (ops := sides) (2 :: []) [] (0, 0, 0, 0)%float) = Ok c2 /\
    Cluster.bounds c1 = Cluster.bounds c2.
Proof.
  apply (Cluster_computeBoundingRect_nan (ops := sides) three_rectangles [0; 1] [] 2 []
           (0, 0, 0, 0)%float (nan, nan, nan, nan)%float); try reflexivity.
  simpl. repeat split; repeat (constructor; [simpl; lia|]); constructor.
Defined.

Lemma ConvexCluster_computeBoundary_spec_witness :
  let rects := omap (fun i => three_rectangles !! i) [0; 1] in
  exists pts,
    ConvexCluster.computeBoundary (ops := sides) every_point three_rectangles [0; 1]
    = Ok pts /\
    Forall2 (fun k p => exists i r, [0; 1] !! (k / 4) = Some i /\
                        three_rectangles !! i = Some r /\
                        p = (ConvexCluster.corner_x (ops := sides) (k mod 4) r,
                             ConvexCluster.corner_y (ops := sides) (k mod 4) r,
                             k / 4, k mod 4))
            (every_point (ConvexCluster.corners_x (ops := sides) rects)
                         (ConvexCluster.corners_y (ops := sides) rects)) pts.
Proof.
  apply (ConvexCluster_computeBoundary_spec (ops := sides) every_point
           three_rectangles [0; 1]).
  - repeat (constructor; [simpl; lia|]). constructor.
  - simpl. lia.
  - repeat (constructor; [simpl; lia|]). constructor.
Defined.
